(** * boring-router: route nodes, the matcher and the navigation engine

    A shallow embedding of
    - [src/src/library/route-match.ts]  (class [RouteMatch]: constructor,
      [$query], [_push], [_match]),
    - [src/core/src/library/router.ts]  (class [Router]: [_match], [_build],
      [_asyncOnLocationChange], [_isNextLocationOutDated], [_revert]),
    and the properties of the specification that are decided by them. *)

From stdpp Require Import base strings list gmap.
From Stdlib Require Import Ascii String.

Open Scope string_scope.
Open Scope list_scope.

(** ** JavaScript values used by the code *)

(** A computation that may [throw new Error(msg)].  The messages are those
    of the source without the values it interpolates into them. *)
Inductive result (A : Type) : Type :=
| Ok (a : A)
| Throw (msg : string).
Arguments Ok {A} a.
Arguments Throw {A} msg.

(** Statements after a throwing call are skipped: [x ← r; k]. *)
#[global] Instance result_bind : MBind result := λ A B k r,
  match r with
  | Ok a => k a
  | Throw msg => Throw msg
  end.

Definition is_throw {A} (r : result A) : bool :=
  match r with Ok _ => false | Throw _ => true end.

(** [Dict<T>]: a plain object used as a string-keyed dictionary.  A value of
    type [string | undefined] is an [option string]. *)
Abbreviation Dict := (gmap string).
Abbreviation JsString := (option string).

(** [{...a, ...b}]: the properties of [b] override those of [a]. *)
Definition spread {A} (a b : Dict A) : Dict A := b ∪ a.

(** [isShallowlyEqual] on dictionaries of strings. *)
Definition isShallowlyEqual (a b : Dict JsString) : bool := bool_decide (a = b).

Module Str.

(** [s.startsWith(p)] *)
Definition startsWith (s p : string) : bool := String.prefix p s.

(** [s.slice(n)] for [0 <= n]. *)
Fixpoint slice (n : nat) (s : string) : string :=
  match n, s with
  | O, _ => s
  | S n', String _ s' => slice n' s'
  | S _, EmptyString => EmptyString
  end.

(** The longest prefix of [s] whose characters all satisfy [p]. *)
Fixpoint takeWhile (p : ascii -> bool) (s : string) : string :=
  match s with
  | String c s' => if p c then String c (takeWhile p s') else EmptyString
  | EmptyString => EmptyString
  end.

Fixpoint forallb (p : ascii -> bool) (s : string) : bool :=
  match s with
  | String c s' => p c && forallb p s'
  | EmptyString => true
  end.

Definition is_slash (c : ascii) : bool := Ascii.eqb c "/"%char.

Definition not_slash (c : ascii) : bool := negb (is_slash c).

(** [s.indexOf(c)], [None] for -1. *)
Fixpoint index_of (c : ascii) (s : string) : option nat :=
  match s with
  | EmptyString => None
  | String c' s' => if Ascii.eqb c' c then Some 0 else S <$> index_of c s'
  end.

(** [!s] for a string: only the empty string is falsy. *)
Definition falsy (s : string) : bool :=
  match s with EmptyString => true | _ => false end.

End Str.

(** ** Path utilities ([@utils]) *)

Module Utils.

(** Modelled from the spec: [isPathPrefix] / [testPathPrefix] of [@utils]
    (the file is not part of the sources).  The spec asks that the prefix be
    "immediately followed by a path separator or end-of-path". *)
Definition isPathPrefix (path prefix : string) : bool :=
  Str.startsWith path prefix &&
  (Nat.eqb (String.length path) (String.length prefix) ||
   match String.get (String.length prefix) path with
   | Some c => Str.is_slash c
   | None => false
   end).

Definition testPathPrefix := isPathPrefix.

End Utils.

(** ** Regular expressions

    A [RegExp] is used by the code through its [global] flag and through
    [pattern.exec(rest)], of which only [groups[0]], the matched text, is
    read. *)
Record RegExp := {
  global : bool;
  exec : string -> option string;
}.

(** [/[^/]*/]: the longest run of characters other than "/" at the start of
    the input; it matches every input, at index 0. *)
Definition re_no_slash_star : RegExp :=
  {| global := false;
     exec := fun s => Some (Str.takeWhile Str.not_slash s) |}.

(** [/.*/]: the longest run of characters other than line terminators. *)
Definition re_dot_star : RegExp :=
  {| global := false;
     exec := fun s =>
       Some (Str.takeWhile
               (fun c => negb (Ascii.eqb c "010"%char || Ascii.eqb c "013"%char)) s) |}.

(** [string | RegExp] *)
Inductive Pattern :=
| PString (s : string)
| PRegExp (r : RegExp).

(** ** [route-match.ts]: class [RouteMatch] *)

Module Match.

Record RouteMatchInternalResult := {
  current : JsString;
  rest : string;
}.

Record RouteMatchPushResult := {
  matched : bool;
  push_rest : string;
  fragmentDict : Dict JsString;
  queryDict : Dict JsString;
}.

(** [query] is the [Dict<boolean>] of the schema, as its entries. *)
Record RouteMatchOptions := {
  match_ : Pattern;
  query : option (list (string * bool));
}.

(** The fields of an instance; [_fragments] and [_query] are [undefined]
    until the first [_push]. *)
Record RouteMatch := {
  _name : string;
  _matchPattern : Pattern;
  _queryKeys : option (list string);
  _matched : bool;
  _fragments : option (Dict JsString);
  _query : option (Dict JsString);
}.

(** The branches of the constructor on [match]. *)
Definition compile (m : Pattern) : result Pattern :=
  match m with
  | PRegExp r =>
      if global r
      then Throw "Expecting a non-global regular expression as match pattern"
      else Ok (PRegExp r)
  | PString s =>
      if String.eqb s "*" then Ok (PRegExp re_no_slash_star)
      else if String.eqb s "**" then Ok (PRegExp re_dot_star)
      else Ok (PString s)
  end.

(** [constructor(private _name, {match, query})] *)
Definition new (name : string) (o : RouteMatchOptions) : result RouteMatch :=
  pattern ← compile (match_ o);
  Ok {| _name := name;
        _matchPattern := pattern;
        _queryKeys := option_map (map fst) (query o);
        _matched := false;
        _fragments := None;
        _query := None |}.

(** [get $query()] *)
Definition get_query (self : RouteMatch) : result (Dict JsString) :=
  match _query self with
  | None => Throw "Query is not accessible, make sure you added it to schema"
  | Some q => Ok q
  end.

(** [_match(skipped, rest)] *)
Definition _match (self : RouteMatch) (skipped : bool) (rest : string)
  : result RouteMatchInternalResult :=
  if skipped || Str.falsy rest then Ok {| current := None; rest := "" |}
  else if negb (Str.startsWith rest "/") then
    Throw "Expecting rest of path to be started with '/'"
  else
    let rest := Str.slice 1 rest in
    match _matchPattern self with
    | PString pattern =>
        if Utils.isPathPrefix rest pattern
        then Ok {| current := Some pattern;
                   rest := Str.slice (String.length pattern) rest |}
        else Ok {| current := None; rest := "" |}
    | PRegExp pattern =>
        match exec pattern rest with
        | Some matched =>
            if negb (Utils.isPathPrefix rest matched) then
              Throw "Invalid regular expression pattern, expecting rest of path to be started with '/' after match"
            else Ok {| current := Some matched;
                       rest := Str.slice (String.length matched) rest |}
        | None => Ok {| current := None; rest := "" |}
        end
    end.

(** The [reduce] over [queryKeys] in [_push]. *)
Definition pick_query (queryKeys : list string) (sourceQueryDict : Dict JsString)
  : Dict JsString :=
  foldl (fun dict key =>
           match mjoin (sourceQueryDict !! key) with
           | Some value => <[key := Some value]> dict
           | None => dict
           end) ∅ queryKeys.

(** [_push(skipped, upperRest, upperFragmentDict, upperQueryDict,
    sourceQueryDict)]: the updated instance and the returned record. *)
Definition _push (self : RouteMatch) (skipped : bool) (upperRest : string)
    (upperFragmentDict upperQueryDict sourceQueryDict : Dict JsString)
  : result (RouteMatch * RouteMatchPushResult) :=
  r ← _match self skipped upperRest;
  let name := _name self in
  let matched := bool_decide (current r ≠ None) in
  let matchPattern := _matchPattern self in
  let fragmentDict :=
    <[name := if matched then current r
              else match matchPattern with
                   | PString p => Some p
                   | PRegExp _ => None
                   end]> upperFragmentDict in
  let queryKeys := _queryKeys self in
  let queryDict :=
    spread upperQueryDict
      (match queryKeys with
       | Some keys => if matched then pick_query keys sourceQueryDict else ∅
       | None => ∅
       end) in
  Ok ({| _name := name;
         _matchPattern := matchPattern;
         _queryKeys := queryKeys;
         _matched := matched;
         _fragments := Some fragmentDict;
         _query := Some queryDict |},
      {| matched := matched;
         push_rest := rest r;
         fragmentDict := fragmentDict;
         queryDict := queryDict |}).

End Match.

(** ** [router.ts]: route nodes as the [Router] sees them *)

(** A route node is a JavaScript object; a [Map] or [Set] keyed by nodes
    compares them by identity.  The identity of a node is its position in the
    tree: its own schema key followed by the keys of its ancestors (the chain
    of parent links). *)
Abbreviation NodeRef := (list string).

Module Node.

(** [_parallel]: the whitelist [{groups?, matches?}]. *)
Record Parallel := {
  groups : option (list string);
  matches : option (list NodeRef);
}.

(** The fields of the core [RouteMatch] that [router.ts] reads or passes to
    its constructor.  [_children] is [[]] where the object has none
    ([target._children || []]). *)
#[warnings="-register-all"] Inductive RouteMatch := mkRouteMatch {
  name : string;
  ref : NodeRef;
  matchPattern : Pattern;
  queryKeys : option (list string);
  allowExact : bool;
  group : JsString;
  _parallel : option Parallel;
  _children : list RouteMatch;
}.

(** Every node below [n] has the group of its parent: no descendant
    declares a group of its own. *)
Fixpoint inherits_group (n : RouteMatch) : Prop :=
  match n with
  | mkRouteMatch _ _ _ _ _ g _ children =>
      (fix all (cs : list RouteMatch) : Prop :=
         match cs with
         | [] => True
         | c :: cs' => (group c = g ∧ inherits_group c) ∧ all cs'
         end) children
  end.

(** The record returned by [routeMatch._match(upperRest)]. *)
Record RouteMatchInternalResult := {
  matched : bool;
  exactlyMatched : bool;
  segment : JsString;
  rest : string;
}.

End Node.

Module Router.

Import Node.

(** A [Location] object; [loc_id] is its identity as an object, which is what
    [!==] compares. *)
Record Location := {
  loc_id : nat;
  pathname : string;
  search : string;
}.

(** Modelled from the spec: [isLocationEqual] of [@utils] (not part of the
    sources); a location is "compared structurally". *)
Definition isLocationEqual (a b : Location) : bool :=
  String.eqb (pathname a) (pathname b) && String.eqb (search a) (search b).

Record RouteMatchEntry := {
  match_ : RouteMatch;
  exact : bool;
  segment : JsString;
}.

(** *** [Map] and [Set] keyed by route nodes, in insertion order *)

Section JsMap.
Context {K V : Type} `{EqDecision K}.

Fixpoint map_get (k : K) (m : list (K * V)) : option V :=
  match m with
  | [] => None
  | (k', v) :: m' => if decide (k' = k) then Some v else map_get k m'
  end.

(** [m.set(k, v)]: an existing key keeps its place. *)
Fixpoint map_set (k : K) (v : V) (m : list (K * V)) : list (K * V) :=
  match m with
  | [] => [(k, v)]
  | (k', v') :: m' =>
      if decide (k' = k) then (k, v) :: m' else (k', v') :: map_set k v m'
  end.

Definition map_keys (m : list (K * V)) : list K := fst <$> m.
Definition map_values (m : list (K * V)) : list V := snd <$> m.

Definition set_has (k : K) (s : list K) : bool := bool_decide (k ∈ s).
Definition set_delete (k : K) (s : list K) : list K :=
  filter (fun k' => k' ≠ k) s.

End JsMap.

Record RouteSource := {
  matchToMatchEntryMap : list (NodeRef * RouteMatchEntry);
  queryDict : Dict JsString;
  pathDict : Dict string;
}.

(** The observable fields of a node that [_update(matched, exact)] marks. *)
Record NodeView := {
  view_matched : bool;
  view_exact : bool;
}.

(** The fields of a [Router].  [_onLeave] and [_onChange] record whether the
    callback is configured; [_history] is external and appears through the
    events below.  [_views] holds, per node, what [_update] wrote. *)
Record Router := {
  _default : Location;
  _prefix : string;
  _onLeave : bool;
  _onChange : bool;
  _location : option Location;
  _nextLocation : option Location;
  _source : RouteSource;
  _matchingSource : RouteSource;
  _children : list RouteMatch;
  _groups : list string;
  _views : gmap NodeRef NodeView;
}.

Definition set_nextLocation (l : option Location) (r : Router) : Router :=
  {| _default := _default r; _prefix := _prefix r; _onLeave := _onLeave r;
     _onChange := _onChange r; _location := _location r; _nextLocation := l;
     _source := _source r; _matchingSource := _matchingSource r;
     _children := _children r; _groups := _groups r; _views := _views r |}.

Definition set_location (l : option Location) (r : Router) : Router :=
  {| _default := _default r; _prefix := _prefix r; _onLeave := _onLeave r;
     _onChange := _onChange r; _location := l; _nextLocation := _nextLocation r;
     _source := _source r; _matchingSource := _matchingSource r;
     _children := _children r; _groups := _groups r; _views := _views r |}.

Definition set_source (s : RouteSource) (r : Router) : Router :=
  {| _default := _default r; _prefix := _prefix r; _onLeave := _onLeave r;
     _onChange := _onChange r; _location := _location r;
     _nextLocation := _nextLocation r;
     _source := s; _matchingSource := _matchingSource r;
     _children := _children r; _groups := _groups r; _views := _views r |}.

Definition set_matchingSource (s : RouteSource) (r : Router) : Router :=
  {| _default := _default r; _prefix := _prefix r; _onLeave := _onLeave r;
     _onChange := _onChange r; _location := _location r;
     _nextLocation := _nextLocation r;
     _source := _source r; _matchingSource := s;
     _children := _children r; _groups := _groups r; _views := _views r |}.

Definition set_views (v : gmap NodeRef NodeView) (r : Router) : Router :=
  {| _default := _default r; _prefix := _prefix r; _onLeave := _onLeave r;
     _onChange := _onChange r; _location := _location r;
     _nextLocation := _nextLocation r;
     _source := _source r; _matchingSource := _matchingSource r;
     _children := _children r; _groups := _groups r; _views := v |}.

(** *** What the engine does to the outside, and what the outside does to it *)

Inductive HookKind :=
| BeforeLeave | BeforeEnter | BeforeUpdate
| AfterLeave | AfterEnter | AfterUpdate.

#[global] Instance HookKind_eq_dec : EqDecision HookKind.
Proof. solve_decision. Defined.

Definition is_before (k : HookKind) : bool :=
  match k with
  | BeforeLeave | BeforeEnter | BeforeUpdate => true
  | _ => false
  end.

(** What one [await match._beforeLeave()] (and the like) comes back with:
    the truthiness of the resolved value, or [None] when the promise rejects;
    and the location object that the history provider has handed to
    [_onLocationChange] in the meantime, if any (the last one, which is what
    [_nextLocation] then holds). *)
Record Awaited := {
  resolved : option bool;
  requested : option Location;
}.

Definition Hooks := HookKind -> NodeRef -> Awaited.

Inductive Event :=
| Hook (k : HookKind) (n : NodeRef) (result : option bool)
| HistoryReplace (l : Location)
| OnLeave (path : string)
| OnChange (from : option Location) (to : Location)
| Update (n : NodeRef) (matched exact : bool).

(** The hook [k] of the node [n] was awaited. *)
Definition is_hook_of (k : HookKind) (n : NodeRef) (ev : Event) : bool :=
  match ev with
  | Hook k' n' _ => bool_decide (k' = k ∧ n' = n)
  | _ => false
  end.

Definition is_replace (ev : Event) : bool :=
  match ev with
  | HistoryReplace _ => true
  | _ => false
  end.

Definition is_update (ev : Event) : bool :=
  match ev with
  | Update _ _ _ => true
  | _ => false
  end.

Definition is_after_hook (ev : Event) : bool :=
  match ev with
  | Hook k _ _ => negb (is_before k)
  | _ => false
  end.

Definition is_on_change (ev : Event) : bool :=
  match ev with
  | OnChange _ _ => true
  | _ => false
  end.

(** A before-hook that resolved to a falsy value. *)
Definition is_veto (ev : Event) : bool :=
  match ev with
  | Hook k _ (Some false) => is_before k
  | _ => false
  end.

(** The node an awaited hook belongs to. *)
Definition hook_node (ev : Event) : option NodeRef :=
  match ev with
  | Hook _ n _ => Some n
  | _ => None
  end.

(** The [return] statement, or the end of the function, by which a run of
    [_asyncOnLocationChange] ends. *)
Inductive Exit :=
| OutDated        (* line 220 *)
| SameLocation    (* line 228 *)
| OutOfPrefix     (* line 253 *)
| Superseded      (* lines 383, 400 *)
| Reverted        (* lines 388, 405 *)
| Rejected        (* an awaited hook rejected *)
| Finished.       (* line 445 *)

(** [_isNextLocationOutDated(location)] *)
Definition _isNextLocationOutDated (self : Router) (location : Location) : bool :=
  match _nextLocation self with
  | Some l => negb (Nat.eqb (loc_id location) (loc_id l))
  | None => true
  end.

(** [_revert()]: the call it makes on the history provider. *)
Definition _revert (self : Router) : Event :=
  HistoryReplace (default (_default self) (_location self)).

(** Modelled from the spec: the getters [_pathSegments] and [$exact] of the
    core [RouteMatch] and of its [_next] mirror (the class is not part of the
    sources).  [_pathSegments] is the "path fragments captured by this node
    and ancestors", [$exact] the exact flag of the node's entry; the node
    reads them from the committed source, its mirror from the speculative
    one. *)
Definition get_exact (source : RouteSource) (n : NodeRef) : bool :=
  match map_get n (matchToMatchEntryMap source) with
  | Some entry => exact entry
  | None => false
  end.

Fixpoint _pathSegments (source : RouteSource) (n : NodeRef) : Dict JsString :=
  match n with
  | [] => ∅
  | key :: parent =>
      <[key := entry ← map_get n (matchToMatchEntryMap source); segment entry]>
        (_pathSegments source parent)
  end.

(** Modelled from the spec: [_update(matched, exact)] of the core
    [RouteMatch], which "marks observable fields". *)
Definition _update (n : NodeRef) (matched exact : bool) (self : Router) : Router :=
  set_views (<[n := {| view_matched := matched; view_exact := exact |}]> (_views self)) self.


(** [self'] is [self] but for [_nextLocation]: all that awaiting a hook
    changes in the router. *)
Definition awaited_from (self self' : Router) : Prop :=
  self' = set_nextLocation (_nextLocation self') self.

(** The events of hooks that were awaited and resolved to a truthy value. *)
Definition allowed (kind : NodeRef -> HookKind) (ms : list NodeRef) : list Event :=
  (fun m => Hook (kind m) m (Some true)) <$> ms.

(** The condition of the loop that computes [enteringAndUpdatingMatchSet]:
    [isShallowlyEqual(match._pathSegments, nextMatch._pathSegments) &&
    match.$exact === nextMatch.$exact]. *)
Definition unchanged (self : Router) (m : NodeRef) : bool :=
  isShallowlyEqual (_pathSegments (_source self) m)
                   (_pathSegments (_matchingSource self) m)
  && Bool.eqb (get_exact (_source self) m) (get_exact (_matchingSource self) m).

(** *** Matching and the transition

    [_match] of a node is a method of the core [RouteMatch] class, and
    [URLSearchParams] a platform class; the router's code is embedded over
    any behaviour of the two. *)

Section Engine.

Variable node_match : RouteMatch -> string -> RouteMatchInternalResult.
Variable URLSearchParams : string -> list (string * string).

(** One iteration of the loop of [_match(target, upperRest)], for the child
    [routeMatch]: [None] is [continue], [Some] is [return]. *)
Fixpoint _match_child (routeMatch : RouteMatch) (upperRest : string)
  : option (list RouteMatchEntry) :=
  let r := node_match routeMatch upperRest in
  if negb (matched r) then None
  else if exactlyMatched r then
    Some [ {| match_ := routeMatch; segment := Node.segment r; exact := true |} ]
  else
    let result :=
      (fix loop (children : list RouteMatch) : option (list RouteMatchEntry) :=
         match children with
         | [] => None
         | child :: children' =>
             match _match_child child (rest r) with
             | Some entries => Some entries
             | None => loop children'
             end
         end)
        (match routeMatch with
         | mkRouteMatch _ _ _ _ _ _ _ children => children
         end) in
    match result with
    | None => None
    | Some result =>
        Some ({| match_ := routeMatch; segment := Node.segment r; exact := false |}
              :: result)
    end.

(** [_match(target, upperRest)], given [target._children || []]. *)
Fixpoint _match (children : list RouteMatch) (upperRest : string)
  : option (list RouteMatchEntry) :=
  match children with
  | [] => None
  | routeMatch :: children' =>
      match _match_child routeMatch upperRest with
      | Some entries => Some entries
      | None => _match children' upperRest
      end
  end.

(** The entry that [_match] makes of a matched child. *)
Definition entry_of (routeMatch : RouteMatch) (upperRest : string) (exact : bool)
  : RouteMatchEntry :=
  {| match_ := routeMatch;
     segment := Node.segment (node_match routeMatch upperRest);
     exact := exact |}.

(** A sibling completes a chain for the path when its pattern matches the
    next segment and either the match is exact or one of its children
    completes a chain for the rest. *)
Definition completes (routeMatch : RouteMatch) (upperRest : string) : bool :=
  let r := node_match routeMatch upperRest in
  matched r &&
  (exactlyMatched r
   || bool_decide (is_Some (_match (Node._children routeMatch) (rest r)))).

(** The [reduce] that builds [queryDict] from the search parameters. *)
Definition parse_query (searchParams : list (string * string)) : Dict JsString :=
  foldl (fun dict kv => <[kv.1 := Some kv.2]> dict) ∅ searchParams.

Record PathInfo := {
  path : string;
  pi_group : JsString;
}.

(** "Extract group route paths in query": the body of the loop over
    [this._groups], on [pathInfos], [pathDict] and [queryDict]. *)
Definition extract_group_path
    (acc : list PathInfo * Dict string * Dict JsString) (group : string)
  : list PathInfo * Dict string * Dict JsString :=
  let '(pathInfos, pathDict, queryDict) := acc in
  let key := "_" +:+ group in
  match queryDict !! key with
  | None => acc
  | Some path =>
      let '(pathInfos, pathDict) :=
        match path with
        | Some p =>
            if Str.falsy p then (pathInfos, pathDict)
            else (pathInfos ++ [ {| path := p; pi_group := Some group |} ],
                  <[group := p]> pathDict)
        | None => (pathInfos, pathDict)
        end in
      (pathInfos, pathDict, delete key queryDict)
  end.

Definition extract_group_paths (groups : list string)
    (init : list PathInfo * Dict string * Dict JsString)
  : list PathInfo * Dict string * Dict JsString :=
  foldl extract_group_path init groups.

(** "Match parallel routes": the loop that fills [groupToMatchEntriesMap]. *)
Definition match_parallel (children : list RouteMatch) (pathInfos : list PathInfo)
  : list (JsString * list RouteMatchEntry) :=
  foldl (fun groupToMatchEntriesMap info =>
           let routeMatchEntries := default [] (_match children (path info)) in
           match routeMatchEntries with
           | [] => groupToMatchEntriesMap
           | entry :: _ =>
               if bool_decide (Node.group (match_ entry) ≠ pi_group info)
               then groupToMatchEntriesMap
               else map_set (pi_group info) routeMatchEntries groupToMatchEntriesMap
           end)
        [] pathInfos.

(** [!group] for [string | undefined]. *)
Definition no_group (group : JsString) : bool :=
  match group with
  | None => true
  | Some g => Str.falsy g
  end.

(** The whitelist test
    [!group || groups.includes(group) || matches.includes(match)]. *)
Definition whitelisted (whitelist : Parallel) (group : JsString)
    (entries : list RouteMatchEntry) : bool :=
  let groups := default [] (Node.groups whitelist) in
  let matches := default [] (Node.matches whitelist) in
  no_group group
  || bool_decide (group ∈ (Some <$> groups))
  || match entries with
     | entry :: _ => bool_decide (ref (match_ entry) ∈ matches)
     | [] => false
     end.

(** "Check primary match parallel whitelist": the merged
    [matchToMatchEntryMap].  The loop above stores non-empty arrays only, so
    that [primaryMatchEntries[0]] is there whenever the slot is. *)
Definition merge_entries
    (groupToMatchEntriesMap : list (JsString * list RouteMatchEntry))
  : list (NodeRef * RouteMatchEntry) :=
  match map_get None groupToMatchEntriesMap with
  | None => []
  | Some [] => []
  | Some (primaryEntry :: _) =>
      let primaryMatch := match_ primaryEntry in
      let matchEntries :=
        match _parallel primaryMatch with
        | Some whitelist =>
            foldl (fun matchEntries ge =>
                     if whitelisted whitelist ge.1 ge.2
                     then matchEntries ++ ge.2 else matchEntries)
                  [] groupToMatchEntriesMap
        | None => List.concat (map_values groupToMatchEntriesMap)
        end in
      foldl (fun m entry => map_set (ref (match_ entry)) entry m) [] matchEntries
  end.

(** [pathname.slice(prefix.length) || '/'] *)
Definition pathWithoutPrefix (self : Router) (nextLocation : Location) : string :=
  let sliced := Str.slice (String.length (_prefix self)) (pathname nextLocation) in
  if Str.falsy sliced then "/" else sliced.

(** [pathInfos], [pathDict] and [queryDict] once the group paths have been
    taken out of the query. *)
Definition route_paths (self : Router) (nextLocation : Location)
  : list PathInfo * Dict string * Dict JsString :=
  let queryDict := parse_query (URLSearchParams (search nextLocation)) in
  let pathWithoutPrefix := pathWithoutPrefix self nextLocation in
  extract_group_paths (_groups self)
    ([ {| path := pathWithoutPrefix; pi_group := None |} ],
     {[ "_" := pathWithoutPrefix ]}, queryDict).

(** The speculative snapshot for [nextLocation], computed by the part of
    [_asyncOnLocationChange] between the prefix test and [runInAction]. *)
Definition next_source (self : Router) (nextLocation : Location) : RouteSource :=
  let '(pathInfos, pathDict, queryDict) := route_paths self nextLocation in
  {| matchToMatchEntryMap :=
       merge_entries (match_parallel (_children self) pathInfos);
     queryDict := queryDict;
     pathDict := pathDict |}.

(** [leavingMatchSet]: the previous set with every next match deleted. *)
Definition leaving (previousMatchSet nextMatchSet : list NodeRef) : list NodeRef :=
  foldl (fun s m => set_delete m s) previousMatchSet nextMatchSet.

(** [enteringAndUpdatingMatchSet]: the next set, from which the loop over the
    previous set deletes the matches whose path segments and exactness are
    the same in both snapshots. *)
Definition enteringAndUpdating (self : Router)
    (previousMatchSet nextMatchSet : list NodeRef) : list NodeRef :=
  foldl (fun s m =>
           if negb (set_has m s) then s
           else if unchanged self m then set_delete m s
           else s)
        nextMatchSet previousMatchSet.

(** [await match._beforeLeave()] and the like: the event, the resolved value
    and the router once the await is over. *)
Definition await (hooks : Hooks) (k : HookKind) (n : NodeRef) (self : Router)
  : Event * option bool * Router :=
  let a := hooks k n in
  (Hook k n (resolved a), resolved a,
   match requested a with
   | Some l => set_nextLocation (Some l) self
   | None => self
   end).

(** The two loops of "Process before hooks"; [kind] tells which hook a match
    gets.  [inl] is falling out of the loop, [inr] a [return]. *)
Fixpoint before_hooks (hooks : Hooks) (kind : NodeRef -> HookKind)
    (nextLocation : Location) (ms : list NodeRef) (self : Router)
  : list Event * Router * option Exit :=
  match ms with
  | [] => ([], self, None)
  | m :: ms' =>
      let '(ev, result, self) := await hooks (kind m) m self in
      match result with
      | None => ([ev], self, Some Rejected)
      | Some result =>
          if _isNextLocationOutDated self nextLocation
          then ([ev], self, Some Superseded)
          else if negb result
          then ([ev; _revert self], self, Some Reverted)
          else
            let '(evs, self, ex) := before_hooks hooks kind nextLocation ms' self in
            (ev :: evs, self, ex)
      end
  end.

(** The two loops of "Process after hooks". *)
Fixpoint after_hooks (hooks : Hooks) (kind : NodeRef -> HookKind)
    (ms : list NodeRef) (self : Router)
  : list Event * Router * option Exit :=
  match ms with
  | [] => ([], self, None)
  | m :: ms' =>
      let '(ev, result, self) := await hooks (kind m) m self in
      match result with
      | None => ([ev], self, Some Rejected)
      | Some _ =>
          let '(evs, self, ex) := after_hooks hooks kind ms' self in
          (ev :: evs, self, ex)
      end
  end.

(** The calls of [_update] made by the two loops of "Update". *)
Definition update_events (reversedLeavingMatches : list NodeRef)
    (matchToMatchEntryMap : list (NodeRef * RouteMatchEntry)) : list Event :=
  ((fun m => Update m false false) <$> reversedLeavingMatches)
    ++ ((fun me => Update me.1 true (exact me.2)) <$> matchToMatchEntryMap).

(** The two loops of "Update". *)
Definition update_all (reversedLeavingMatches : list NodeRef)
    (matchToMatchEntryMap : list (NodeRef * RouteMatchEntry)) (self : Router)
  : list Event * Router :=
  let self1 :=
    foldl (fun self m => _update m false false self) self reversedLeavingMatches in
  let self2 :=
    foldl (fun self me => _update me.1 true (exact me.2) self) self1
          matchToMatchEntryMap in
  (update_events reversedLeavingMatches matchToMatchEntryMap, self2).

(** The locals of [_asyncOnLocationChange] that the hook phases work on, as
    functions of the router at the start and of [nextLocation]. *)
Definition previousMatchSet (self : Router) : list NodeRef :=
  map_keys (matchToMatchEntryMap (_source self)).

Definition nextMatchSet (self : Router) (nextLocation : Location) : list NodeRef :=
  map_keys (matchToMatchEntryMap (next_source self nextLocation)).

Definition reversedLeavingMatches (self : Router) (nextLocation : Location)
  : list NodeRef :=
  reverse (leaving (previousMatchSet self) (nextMatchSet self nextLocation)).

Definition enteringAndUpdatingMatchSet (self : Router) (nextLocation : Location)
  : list NodeRef :=
  enteringAndUpdating
    (set_matchingSource (next_source self nextLocation) self)
    (previousMatchSet self) (nextMatchSet self nextLocation).

(** [update ? match._beforeUpdate() : match._beforeEnter()] with
    [update = previousMatchSet.has(match)], and the same for the after
    hooks. *)
Definition beforeKind (self : Router) (m : NodeRef) : HookKind :=
  if set_has m (previousMatchSet self) then BeforeUpdate else BeforeEnter.

Definition afterKind (self : Router) (m : NodeRef) : HookKind :=
  if set_has m (previousMatchSet self) then AfterUpdate else AfterEnter.

(** [_asyncOnLocationChange] from [this._location = nextLocation] to its
    end: the commit, "Update", "Process after hooks" and [onChange].
    [start] is the router as the run found it, [self] the router after the
    before-hooks. *)
Definition commit_and_notify (hooks : Hooks) (start : Router)
    (nextLocation : Location) (self : Router) : list Event * Router * Exit :=
  let location := _location start in
  let matchToMatchEntryMap := matchToMatchEntryMap (next_source start nextLocation) in
  let reversedLeavingMatches := reversedLeavingMatches start nextLocation in
  let enteringAndUpdatingMatchSet := enteringAndUpdatingMatchSet start nextLocation in
  let self := set_location (Some nextLocation) self in
  let self := set_source (_matchingSource self) self in
  let '(evs3, self) := update_all reversedLeavingMatches matchToMatchEntryMap self in
  let '(evs4, self, ex) :=
    after_hooks hooks (fun _ => AfterLeave) reversedLeavingMatches self in
  match ex with
  | Some e => (evs3 ++ evs4, self, e)
  | None =>
  let '(evs5, self, ex) :=
    after_hooks hooks (afterKind start) enteringAndUpdatingMatchSet self in
  match ex with
  | Some e => (evs3 ++ evs4 ++ evs5, self, e)
  | None =>
      (evs3 ++ evs4 ++ evs5
         ++ (if _onChange self then [OnChange location nextLocation] else []),
       self, Finished)
  end end.

(** [_asyncOnLocationChange(nextLocation)]: the events in the order they
    happen, the router afterwards, and the way the run ended. *)
Definition _asyncOnLocationChange (hooks : Hooks) (self : Router)
    (nextLocation : Location) : list Event * Router * Exit :=
  if _isNextLocationOutDated self nextLocation then ([], self, OutDated)
  else
  let location := _location self in
  if match location with
     | Some l => isLocationEqual l nextLocation
     | None => false
     end
  then ([], self, SameLocation)
  else
  if negb (Utils.testPathPrefix (pathname nextLocation) (_prefix self))
  then ((if _onLeave self then [OnLeave (pathname nextLocation)] else []),
        self, OutOfPrefix)
  else
  let start := self in
  let self := set_matchingSource (next_source start nextLocation) start in
  let '(evs1, self, ex) :=
    before_hooks hooks (fun _ => BeforeLeave) nextLocation
                 (reversedLeavingMatches start nextLocation) self in
  match ex with
  | Some e => (evs1, self, e)
  | None =>
  let '(evs2, self, ex) :=
    before_hooks hooks (beforeKind start) nextLocation
                 (enteringAndUpdatingMatchSet start nextLocation) self in
  match ex with
  | Some e => (evs1 ++ evs2, self, e)
  | None =>
  let '(evs, self, e) := commit_and_notify hooks start nextLocation self in
  (evs1 ++ evs2 ++ evs, self, e)
  end end.

(** The events of a run up to the hook at which a before-phase returned:
    the hooks before it allowed, [last] is what the phase ended with. *)
Definition stopped_at (self : Router) (nextLocation : Location)
    (last : HookKind -> NodeRef -> list Event) (evs : list Event) : Prop :=
  (∃ pre m post,
     reversedLeavingMatches self nextLocation = pre ++ m :: post ∧
     evs = allowed (fun _ => BeforeLeave) pre ++ last BeforeLeave m) ∨
  (∃ pre m post,
     enteringAndUpdatingMatchSet self nextLocation = pre ++ m :: post ∧
     evs = allowed (fun _ => BeforeLeave) (reversedLeavingMatches self nextLocation)
             ++ allowed (beforeKind self) pre ++ last (beforeKind self m) m).

(** The router and the events of a run that got to the commit. *)
Definition committed (self : Router) (nextLocation : Location)
    (evs : list Event) (self' : Router) : Prop :=
  _location self' = Some nextLocation ∧
  _source self' = next_source self nextLocation ∧
  _matchingSource self' = next_source self nextLocation ∧
  ∃ evsA,
    evs = allowed (fun _ => BeforeLeave) (reversedLeavingMatches self nextLocation)
            ++ allowed (beforeKind self) (enteringAndUpdatingMatchSet self nextLocation)
            ++ update_events (reversedLeavingMatches self nextLocation)
                 (matchToMatchEntryMap (next_source self nextLocation))
            ++ evsA ∧
    Forall (fun ev =>
              is_on_change ev = true ∨
              is_after_hook ev = true ∧
              ∃ m, hook_node ev = Some m ∧
                   (m ∈ reversedLeavingMatches self nextLocation ∨
                    m ∈ enteringAndUpdatingMatchSet self nextLocation)) evsA.

(** [_onLocationChange(location)]: the assignment to [_nextLocation]; the
    call of [_asyncOnLocationChange] that it chains runs once the previous
    one has settled. *)
Definition _onLocationChange (self : Router) (location : Location) : Router :=
  set_nextLocation (Some location) self.

End Engine.

(** *** Building the tree *)

(** A schema entry: [true], or an object with the recognised keys.
    [$group] is [Some v] when the key is present (['$group' in schema]).
    [$extension] is merged onto the node and plays no part in matching or in
    the transition. *)
#[warnings="-register-all"] Inductive RouteSchema :=
| SchemaBool (b : bool)
| SchemaObject
    (s_match : option Pattern)
    (s_query : option (list (string * bool)))
    (s_exact : option bool)
    (s_group : option JsString)
    (s_children : option (list (string * RouteSchema))).

(** No entry below this one declares [$group]. *)
Fixpoint no_nested_group (schema : RouteSchema) : Prop :=
  match schema with
  | SchemaBool _ => True
  | SchemaObject _ _ _ _ s_children =>
      match s_children with
      | None => True
      | Some dict =>
          (fix all (dict : list (string * RouteSchema)) : Prop :=
             match dict with
             | [] => True
             | (_, SchemaBool _) :: dict' => all dict'
             | (_, SchemaObject m q e g c as s) :: dict' =>
                 (g = None ∧ no_nested_group s) ∧ all dict'
             end) dict
      end
  end.

(** Modelled from the spec: the constructor of the core [RouteMatch] (the
    class is not part of the sources).  It keeps the options it is given;
    "bad regex flags" are "fatal at tree-build time", which is the pattern
    compilation of the constructor in [route-match.ts]. *)
Definition new_RouteMatch (key : string) (parent : NodeRef)
    (match_ : Pattern) (query : option (list (string * bool)))
    (exact : bool) (group : JsString) (children : list RouteMatch)
  : result RouteMatch :=
  pattern ← Match.compile match_;
  Ok {| name := key;
        ref := key :: parent;
        matchPattern := pattern;
        queryKeys := option_map (map fst) query;
        allowExact := exact;
        group := group;
        _parallel := None;
        Node._children := children |}.

Section Build.

Variable _segmentMatcher : string -> string.

(** The body of the loop of [_build] for the entry [key: schema] under the
    node [parent], whose group is [parentGroup]. *)
Fixpoint build_entry (parent : NodeRef) (parentGroup : JsString)
    (key : string) (schema : RouteSchema) {struct schema} : result RouteMatch :=
  match schema with
  | SchemaBool _ =>
      new_RouteMatch key parent (PString (_segmentMatcher key)) None false
                     parentGroup []
  | SchemaObject s_match s_query s_exact s_group s_children =>
      let group := default parentGroup s_group in
      let match_ := default (PString (_segmentMatcher key)) s_match in
      let exact := default false s_exact in
      _ ← Match.compile match_;
      children ←
        match s_children with
        | None => Ok []
        | Some dict =>
            (fix build_dict (dict : list (string * RouteSchema))
               : result (list RouteMatch) :=
               match dict with
               | [] => Ok []
               | (k, s) :: dict' =>
                   routeMatch ← build_entry (key :: parent) group k s;
                   routeMatches ← build_dict dict';
                   Ok (routeMatch :: routeMatches)
               end) dict
        end;
      new_RouteMatch key parent match_ s_query exact group children
  end.

(** [_build(schemaDict, parent, groupSet, matchingParent)]: the route
    matches. *)
Fixpoint _build (schemaDict : list (string * RouteSchema)) (parent : NodeRef)
    (parentGroup : JsString) : result (list RouteMatch) :=
  match schemaDict with
  | [] => Ok []
  | (key, schema) :: schemaDict' =>
      routeMatch ← build_entry parent parentGroup key schema;
      routeMatches ← _build schemaDict' parent parentGroup;
      Ok (routeMatch :: routeMatches)
  end.

(** What the root call of [_build] leaves in [groupSet]: the truthy groups
    of the top-level nodes, each once, in order. *)
Definition build_groups (routeMatches : list RouteMatch) : list string :=
  foldl (fun groupSet routeMatch =>
           match group routeMatch with
           | Some g =>
               if Str.falsy g || set_has g groupSet then groupSet
               else groupSet ++ [g]
           | None => groupSet
           end) [] routeMatches.

End Build.

Record RouterOptions := {
  segmentMatcher : string -> string;
  default_ : Location;
  prefix : string;
  onLeave : bool;
  onChange : bool;
}.

Definition empty_source : RouteSource :=
  {| matchToMatchEntryMap := []; queryDict := ∅; pathDict := ∅ |}.

(** [Router.create(schema, history, options)]: the router as the constructor
    leaves it, before the history provider has reported a location. *)
Definition create (schema : list (string * RouteSchema)) (o : RouterOptions)
  : result Router :=
  children ← _build (segmentMatcher o) schema [] None;
  Ok {| _default := default_ o;
        _prefix := prefix o;
        _onLeave := onLeave o;
        _onChange := onChange o;
        _location := None;
        _nextLocation := None;
        _source := empty_source;
        _matchingSource := empty_source;
        _children := children;
        _groups := build_groups children;
        _views := ∅ |}.

(** *** A matcher and a query parser to run the router on *)

(** Modelled from the spec: [_match(upperRest)] of the core [RouteMatch] (the
    class is not part of the sources).  The pattern is tested against the
    path as [_match] of [route-match.ts] does; "a literal string pattern
    matches iff the next path segment equals the pattern", the match is exact
    when "no remaining path segments exist", and an inexact match "continues
    into its children" with the rest. *)
Definition spec_node_match (routeMatch : RouteMatch) (upperRest : string)
  : RouteMatchInternalResult :=
  let unmatched :=
    {| matched := false; exactlyMatched := false;
       Node.segment := None; rest := "" |} in
  if Str.falsy upperRest || negb (Str.startsWith upperRest "/") then unmatched
  else
    let rest' := Str.slice 1 upperRest in
    let segment :=
      match matchPattern routeMatch with
      | PString pattern =>
          if Utils.isPathPrefix rest' pattern then Some pattern else None
      | PRegExp pattern =>
          m ← exec pattern rest';
          if Utils.isPathPrefix rest' m then Some m else None
      end in
    match segment with
    | None => unmatched
    | Some s =>
        let rest'' := Str.slice (String.length s) rest' in
        {| matched := true; exactlyMatched := Str.falsy rest'';
           Node.segment := Some s; rest := rest'' |}
    end.

Fixpoint split_on (c : ascii) (s : string) (fuel : nat) : list string :=
  match fuel with
  | O => [s]
  | S fuel' =>
      match Str.index_of c s with
      | None => [s]
      | Some i => String.substring 0 i s :: split_on c (Str.slice (S i) s) fuel'
      end
  end.

(** [Array.from(new URLSearchParams(search))] for a search string without
    percent-escapes and "+": the leading "?" is dropped, the pairs are
    separated by "&" and a pair is split at its first "=". *)
Definition simple_URLSearchParams (search : string) : list (string * string) :=
  let body := if Str.startsWith search "?" then Str.slice 1 search else search in
  if Str.falsy body then []
  else
    (fun kv =>
       match Str.index_of "="%char kv with
       | Some i => (String.substring 0 i kv, Str.slice (S i) kv)
       | None => (kv, "")
       end) <$> split_on "&"%char body (String.length body).

End Router.

(** ** Schemas, patterns and hooks used as examples *)

Module Examples.

Import Node Router.

(** [/a/]: matches the first "a" of the input, wherever it is. *)
Definition re_letter_a : RegExp :=
  {| global := false;
     exec := fun s => match Str.index_of "a"%char s with
                      | Some _ => Some "a"
                      | None => None
                      end |}.

(** [hyphenate(key, {lowerCase: true})] leaves a lower-case key without
    separators as it is; the examples use such keys only. *)
Definition options : RouterOptions :=
  {| segmentMatcher := fun key => key;
     default_ := {| loc_id := 0; pathname := "/"; search := "" |};
     prefix := "";
     onLeave := false;
     onChange := false |}.

(** The history provider hands [location] to [_onLocationChange]; the run of
    [_asyncOnLocationChange] that this chains starts with nothing else
    having happened. *)
Definition navigate (hooks : Hooks) (self : Router) (location : Location)
  : list Event * Router * Exit :=
  _asyncOnLocationChange spec_node_match simple_URLSearchParams hooks
    (_onLocationChange self location) location.

(** Every hook resolves to a truthy value and requests nothing. *)
Definition allow_all : Hooks :=
  fun _ _ => {| resolved := Some true; requested := None |}.

Definition at_ (id : nat) (pathname search : string) : Location :=
  {| loc_id := id; pathname := pathname; search := search |}.

Definition blank : Router :=
  {| _default := default_ options; _prefix := ""; _onLeave := false;
     _onChange := false; _location := None; _nextLocation := None;
     _source := empty_source; _matchingSource := empty_source;
     _children := []; _groups := []; _views := ∅ |}.

(** The router of a schema; [blank] where the construction throws. *)
Definition router_of (schema : list (string * RouteSchema)) : Router :=
  match create schema options with
  | Ok r => r
  | Throw _ => blank
  end.

(** The schema of [hooks.test.ts]. *)
Definition hooks_schema : list (string * RouteSchema) :=
  [ ("default", SchemaObject (Some (PString "")) None None None None);
    ("about", SchemaBool true);
    ("redirect", SchemaBool true);
    ("revert", SchemaBool true);
    ("persist", SchemaBool true);
    ("parent", SchemaObject None None (Some true) None
                 (Some [ ("nested", SchemaBool true) ])) ].

(** [{parent: {$exact: true, $children: {nested: true}}}] *)
Definition parent_schema : list (string * RouteSchema) :=
  [ ("parent", SchemaObject None None (Some true) None
                 (Some [ ("nested", SchemaBool true) ])) ].

(** A wildcard declared before a literal sibling. *)
Definition shadow_schema : list (string * RouteSchema) :=
  [ ("user", SchemaObject (Some (PString "*")) None None None
               (Some [ ("profile", SchemaBool true) ]));
    ("about", SchemaObject None None None None
               (Some [ ("team", SchemaBool true) ])) ].

(** A nested entry that declares a group of its own. *)
Definition nested_group_schema : list (string * RouteSchema) :=
  [ ("docs", SchemaObject None None None None
               (Some [ ("api", SchemaObject None None None
                                 (Some (Some "sidebar")) None) ])) ].

(** A top-level group next to a primary route. *)
Definition group_schema : list (string * RouteSchema) :=
  [ ("about", SchemaBool true);
    ("chat", SchemaObject None None None (Some (Some "sidebar")) None) ].

(** The hook of [revert] in [hooks.test.ts]: [beforeEnter] of [revert]
    resolves to [false]; every other hook allows. *)
Definition veto_revert : Hooks :=
  fun k n =>
    {| resolved :=
         Some (negb (bool_decide (k = BeforeEnter ∧ n = ["revert"])));
       requested := None |}.

(** The hook of [redirect] in [hooks.test.ts]: [beforeEnter] of [redirect]
    pushes "/about" and its result is falsy; every other hook allows. *)
Definition redirect_to_about : Hooks :=
  fun k n =>
    if bool_decide (k = BeforeEnter ∧ n = ["redirect"])
    then {| resolved := Some false; requested := Some (at_ 9 "/about" "") |}
    else {| resolved := Some true; requested := None |}.

(** The hook of [persist] in [hooks.test.ts]: [beforeLeave] of [persist]
    resolves to [false]; every other hook allows. *)
Definition veto_persist : Hooks :=
  fun k n =>
    {| resolved :=
         Some (negb (bool_decide (k = BeforeLeave ∧ n = ["persist"])));
       requested := None |}.

(** [match.$matched] as the UI layer reads it; [false] until the first
    [_update]. *)
Definition matched_view (self : Router) (n : NodeRef) : bool :=
  match _views self !! n with
  | Some v => view_matched v
  | None => false
  end.

(** The number of times the hook [k] of the node [n] was awaited. *)
Definition hook_count (k : HookKind) (n : NodeRef) (evs : list Event) : nat :=
  List.length (filter (fun ev => is_hook_of k n ev = true) evs).

End Examples.

(** ** Further notions used by the properties below *)


(** The pattern of a schema entry is a regular expression with the [global]
    flag, or that of an entry below it is. *)
Fixpoint has_global_pattern (schema : Router.RouteSchema) : bool :=
  match schema with
  | Router.SchemaBool _ => false
  | Router.SchemaObject s_match _ _ _ s_children =>
      match s_match with
      | Some (PRegExp r) => global r
      | _ => false
      end
      || match s_children with
         | None => false
         | Some dict =>
             (fix any (dict : list (string * Router.RouteSchema)) : bool :=
                match dict with
                | [] => false
                | (_, s) :: dict' => has_global_pattern s || any dict'
                end) dict
         end
  end.


(** [entries] is a chain of the tree below [children]: its first node is
    one of [children], each further node is a child of the node before it,
    and the last entry, and only the last, is exact. *)
Fixpoint is_chain (children : list Node.RouteMatch)
    (entries : list Router.RouteMatchEntry) : Prop :=
  match entries with
  | [] => False
  | e :: es =>
      Router.match_ e ∈ children ∧
      match es with
      | [] => Router.exact e = true
      | _ :: _ =>
          Router.exact e = false ∧
          is_chain (Node._children (Router.match_ e)) es
      end
  end.

(** [match.$parallel(whitelist)]: the node with its whitelist set. *)
Definition with_parallel (whitelist : Node.Parallel) (n : Node.RouteMatch)
  : Node.RouteMatch :=
  {| Node.name := Node.name n; Node.ref := Node.ref n;
     Node.matchPattern := Node.matchPattern n; Node.queryKeys := Node.queryKeys n;
     Node.allowExact := Node.allowExact n; Node.group := Node.group n;
     Node._parallel := Some whitelist; Node._children := Node._children n |}.

(** The events of a loop of after-hooks that ran to its end. *)
Definition awaited (hooks : Router.Hooks) (kind : NodeRef -> Router.HookKind)
    (ms : list NodeRef) : list Router.Event :=
  (fun m => Router.Hook (kind m) m (Router.resolved (hooks (kind m) m))) <$> ms.

(** The observable fields once the two loops of "Update" have run over
    [views]. *)
Definition views_after (reversedLeavingMatches : list NodeRef)
    (matchToMatchEntryMap : list (NodeRef * Router.RouteMatchEntry))
    (views : gmap NodeRef Router.NodeView) : gmap NodeRef Router.NodeView :=
  foldl (fun v me =>
           <[me.1 := {| Router.view_matched := true;
                        Router.view_exact := Router.exact me.2 |}]> v)
        (foldl (fun v m =>
                  <[m := {| Router.view_matched := false;
                            Router.view_exact := false |}]> v)
               views reversedLeavingMatches)
        matchToMatchEntryMap.

(** A primary route with a whitelist next to two groups. *)
Definition whitelist_schema : list (string * Router.RouteSchema) :=
  [ ("inbox", Router.SchemaBool true);
    ("chat", Router.SchemaObject None None None (Some (Some "g1")) None);
    ("help", Router.SchemaObject None None None (Some (Some "g2")) None) ].

(** The router of [whitelist_schema] after
    [inbox.$parallel({groups: ['g1']})]. *)
Definition whitelist_router : Router.Router :=
  let self := Examples.router_of whitelist_schema in
  {| Router._default := Router._default self; Router._prefix := Router._prefix self;
     Router._onLeave := Router._onLeave self; Router._onChange := Router._onChange self;
     Router._location := Router._location self;
     Router._nextLocation := Router._nextLocation self;
     Router._source := Router._source self;
     Router._matchingSource := Router._matchingSource self;
     Router._children :=
       (fun n => if bool_decide (Node.ref n = ["inbox"])
                 then with_parallel {| Node.groups := Some ["g1"];
                                       Node.matches := None |} n
                 else n) <$> Router._children self;
     Router._groups := Router._groups self; Router._views := Router._views self |}.

(** What a router is constructed with and never assigns again. *)
Definition static (self : Router.Router) :=
  (Router._default self, Router._prefix self, Router._onLeave self,
   Router._onChange self, Router._children self, Router._groups self).

(** The committed state of [self'] is that of [self]. *)
Definition untouched (self self' : Router.Router) : Prop :=
  Router._location self' = Router._location self ∧
  Router._source self' = Router._source self ∧
  Router._views self' = Router._views self.

(** The committed state of [self'] is the snapshot that [self] computes for
    [nextLocation], and the observable fields have been updated from it. *)
Definition landed
    (node_match : Node.RouteMatch -> string -> Node.RouteMatchInternalResult)
    (URLSearchParams : string -> list (string * string))
    (self : Router.Router) (nextLocation : Router.Location)
    (self' : Router.Router) : Prop :=
  Router._location self' = Some nextLocation ∧
  Router._source self' = Router.next_source node_match URLSearchParams self nextLocation ∧
  Router._matchingSource self' = Router._source self' ∧
  Router._views self'
  = views_after
      (Router.reversedLeavingMatches node_match URLSearchParams self nextLocation)
      (Router.matchToMatchEntryMap (Router._source self')) (Router._views self).

(** No hook asks for another location while it is awaited. *)
Definition quiet (hooks : Router.Hooks) : Prop :=
  ∀ k n, Router.requested (hooks k n) = None.

(** * The synchronous router: [src/src/library/router.ts]

    The router of the first version calls the hooks of the nodes
    synchronously and hands a veto back to the history by the action that
    brought the location.  Its [_match] is the loop embedded as
    [Router._match]; the field [fragment] of its entries is [segment]
    there. *)

Module SyncRouter.

Import Node.

(** [Action] of the history package. *)
Inductive Action := PUSH | POP | REPLACE.

Record RouteSource := {
  matchToMatchEntryMap : list (NodeRef * Router.RouteMatchEntry);
  queryDict : Dict JsString;
}.

(** The fields of a [Router]; [_history] is external and appears through
    the events below, [_fragmentMatcher] is used by [_build] only. *)
Record Router := {
  _location : Router.Location;
  _source : RouteSource;
  _matchingSource : RouteSource;
  _children : list RouteMatch;
}.

Definition set_location (l : Router.Location) (r : Router) : Router :=
  {| _location := l; _source := _source r;
     _matchingSource := _matchingSource r; _children := _children r |}.

Definition set_source (s : RouteSource) (r : Router) : Router :=
  {| _location := _location r; _source := s;
     _matchingSource := _matchingSource r; _children := _children r |}.

Definition set_matchingSource (s : RouteSource) (r : Router) : Router :=
  {| _location := _location r; _source := _source r;
     _matchingSource := s; _children := _children r |}.

Inductive HookKind := BeforeLeave | BeforeEnter | AfterLeave | AfterEnter.

(** What a hook returns, as far as the router tells the values apart: by
    [typeof result === 'string'] and by [!result]. *)
Inductive HookResult :=
| RString (s : string)
| ROther (truthy : bool).

(** [!result] *)
Definition not_ (result : HookResult) : bool :=
  match result with
  | RString s => Str.falsy s
  | ROther truthy => negb truthy
  end.

(** A hook is a synchronous call: it returns or throws ([None]), and it may
    have changed the router before it does, by navigating for one. *)
Definition Hooks := HookKind -> NodeRef -> Router -> option HookResult * Router.

(** What the run does that can be seen from outside: the calls of hooks,
    the calls on [history], and the calls of [_update]. *)
Inductive Event :=
| Hook (k : HookKind) (n : NodeRef)
| GoBack                              (* history.goBack() *)
| Replace (l : Router.Location)       (* history.replace(location) *)
| ReplacePath (path : string)         (* history.replace(result) *)
| Update (n : NodeRef) (matched exact : bool).

Inductive Exit :=
| SameLocation    (* line 157 *)
| Reverted        (* lines 207 and 221 *)
| Redirected      (* line 216 *)
| Threw           (* a hook threw *)
| Finished.

Definition is_update (ev : Event) : bool :=
  match ev with Update _ _ _ => true | _ => false end.


(** [_revert(action)]: the call it makes on [history]. *)
Definition _revert (action : Action) (self : Router) : Event :=
  match action with
  | PUSH => GoBack
  | POP | REPLACE => Replace (_location self)
  end.

(** [new Map(routeMatchEntries.map(entry => [entry.match, entry]))] *)
Definition entries_map (routeMatchEntries : list Router.RouteMatchEntry)
  : list (NodeRef * Router.RouteMatchEntry) :=
  foldl (fun m entry => Router.map_set (ref (Router.match_ entry)) entry m)
        [] routeMatchEntries.

Section Engine.

Variable node_match : RouteMatch -> string -> RouteMatchInternalResult.
Variable URLSearchParams : string -> list (string * string).
Variable locationsAreEqual : Router.Location -> Router.Location -> bool.

(** The loop over the leaving matches of "Process before hooks". *)
Fixpoint before_leave (hooks : Hooks) (action : Action) (ms : list NodeRef)
    (self : Router) : list Event * Router * option Exit :=
  match ms with
  | [] => ([], self, None)
  | m :: ms' =>
      let '(result, self) := hooks BeforeLeave m self in
      match result with
      | None => ([Hook BeforeLeave m], self, Some Threw)
      | Some result =>
          if not_ result
          then ([Hook BeforeLeave m; _revert action self], self, Some Reverted)
          else
            let '(evs, self, ex) := before_leave hooks action ms' self in
            (Hook BeforeLeave m :: evs, self, ex)
      end
  end.

(** The loop over the entering matches of "Process before hooks". *)
Fixpoint before_enter (hooks : Hooks) (action : Action) (ms : list NodeRef)
    (self : Router) : list Event * Router * option Exit :=
  match ms with
  | [] => ([], self, None)
  | m :: ms' =>
      let '(result, self) := hooks BeforeEnter m self in
      match result with
      | None => ([Hook BeforeEnter m], self, Some Threw)
      | Some (RString path) =>
          ([Hook BeforeEnter m; ReplacePath path], self, Some Redirected)
      | Some result =>
          if not_ result
          then ([Hook BeforeEnter m; _revert action self], self, Some Reverted)
          else
            let '(evs, self, ex) := before_enter hooks action ms' self in
            (Hook BeforeEnter m :: evs, self, ex)
      end
  end.

(** The two loops of "Process after hooks"; what the hook returns is not
    looked at. *)
Fixpoint after_hooks (hooks : Hooks) (kind : HookKind) (ms : list NodeRef)
    (self : Router) : list Event * Router * option Exit :=
  match ms with
  | [] => ([], self, None)
  | m :: ms' =>
      let '(result, self) := hooks kind m self in
      match result with
      | None => ([Hook kind m], self, Some Threw)
      | Some _ =>
          let '(evs, self, ex) := after_hooks hooks kind ms' self in
          (Hook kind m :: evs, self, ex)
      end
  end.

(** The calls of [_update] made by the two loops of "Update";
    [matchToMatchEntryMap.get(match)!] is the entry of a key of the map. *)
Definition update_events (leavingMatchSet nextMatchSet : list NodeRef)
    (matchToMatchEntryMap : list (NodeRef * Router.RouteMatchEntry))
  : list Event :=
  ((fun m => Update m false false) <$> leavingMatchSet)
    ++ ((fun m => Update m true
                    (from_option Router.exact false
                       (Router.map_get m matchToMatchEntryMap)))
          <$> nextMatchSet).

(** The speculative snapshot that [_onLocationChange] assigns to
    [_matchingSource]. *)
Definition next_source (self : Router) (location : Router.Location)
  : RouteSource :=
  let queryDict :=
    Router.parse_query (URLSearchParams (Router.search location)) in
  let routeMatchEntries :=
    default [] (Router._match node_match (_children self)
                  (Router.pathname location)) in
  {| matchToMatchEntryMap := entries_map routeMatchEntries;
     queryDict := queryDict |}.

Definition previousMatchSet (self : Router) : list NodeRef :=
  Router.map_keys (matchToMatchEntryMap (_source self)).

Definition nextMatchSet (self : Router) (location : Router.Location)
  : list NodeRef :=
  Router.map_keys (matchToMatchEntryMap (next_source self location)).

Definition leavingMatchSet (self : Router) (location : Router.Location)
  : list NodeRef :=
  Router.leaving (previousMatchSet self) (nextMatchSet self location).

Definition enteringMatchSet (self : Router) (location : Router.Location)
  : list NodeRef :=
  Router.leaving (nextMatchSet self location) (previousMatchSet self).

(** [_onLocationChange({pathname, search}, action)], the listener of the
    history; [history_location] is [history.location] when it is called.
    The events in the order they happen, the router afterwards, and the way
    the call ended. *)
Definition _onLocationChange (hooks : Hooks) (self : Router)
    (argument : Router.Location) (action : Action)
    (history_location : Router.Location) : list Event * Router * Exit :=
  let location := history_location in
  if locationsAreEqual (_location self) location then ([], self, SameLocation)
  else
  let start := self in
  let matchToMatchEntryMap := matchToMatchEntryMap (next_source start argument) in
  let self := set_matchingSource (next_source start argument) start in
  let leavingMatchSet := leavingMatchSet start argument in
  let enteringMatchSet := enteringMatchSet start argument in
  let '(evs1, self, ex) :=
    before_leave hooks action (reverse leavingMatchSet) self in
  match ex with
  | Some e => (evs1, self, e)
  | None =>
  let '(evs2, self, ex) := before_enter hooks action enteringMatchSet self in
  match ex with
  | Some e => (evs1 ++ evs2, self, e)
  | None =>
  let self := set_location location self in
  let self := set_source (_matchingSource self) self in
  let evs3 :=
    update_events leavingMatchSet (nextMatchSet start argument)
      matchToMatchEntryMap in
  let '(evs4, self, ex) := after_hooks hooks AfterLeave leavingMatchSet self in
  match ex with
  | Some e => (evs1 ++ evs2 ++ evs3 ++ evs4, self, e)
  | None =>
  let '(evs5, self, ex) := after_hooks hooks AfterEnter enteringMatchSet self in
  (evs1 ++ evs2 ++ evs3 ++ evs4 ++ evs5, self, default Finished ex)
  end end end.

End Engine.

(** No hook changes the router or throws. *)
Definition quiet (hooks : Hooks) : Prop :=
  ∀ k n self, ∃ result, hooks k n self = (Some result, self).

End SyncRouter.

(** A synchronous router over the tree of [hooks.test.ts], with nothing
    matched yet. *)
Definition sync_router : SyncRouter.Router :=
  {| SyncRouter._location := Examples.at_ 0 "/" "";
     SyncRouter._source :=
       {| SyncRouter.matchToMatchEntryMap := []; SyncRouter.queryDict := ∅ |};
     SyncRouter._matchingSource :=
       {| SyncRouter.matchToMatchEntryMap := []; SyncRouter.queryDict := ∅ |};
     SyncRouter._children :=
       Router._children (Examples.router_of Examples.hooks_schema) |}.

(** [beforeEnter] of [revert] returns [false], that of [redirect] returns
    the path "/about"; every other hook returns [true]. *)
Definition sync_hooks : SyncRouter.Hooks :=
  fun k n self =>
    (Some (match k with
           | SyncRouter.BeforeEnter =>
               if bool_decide (n = ["revert"]) then SyncRouter.ROther false
               else if bool_decide (n = ["redirect"])
                    then SyncRouter.RString "/about"
                    else SyncRouter.ROther true
           | _ => SyncRouter.ROther true
           end), self).

Definition sync_navigate (hooks : SyncRouter.Hooks) (self : SyncRouter.Router)
    (location : Router.Location) (action : SyncRouter.Action)
  : list SyncRouter.Event * SyncRouter.Router * SyncRouter.Exit :=
  SyncRouter._onLocationChange Router.spec_node_match
    Router.simple_URLSearchParams Router.isLocationEqual
    hooks self location action location.

(** * Properties *)

Import Str Utils.

(** ** Strings and path prefixes *)

Lemma append_cons c s t : String c s +:+ t = String c (s +:+ t).
Proof. reflexivity. Qed.

Lemma append_nil_l s : "" +:+ s = s.
Proof. reflexivity. Qed.

Lemma append_nil_r s : s +:+ "" = s.
Proof. induction s as [|c s IH]; [done|]. by rewrite append_cons, IH. Qed.

Lemma startsWith_app p s : startsWith (p +:+ s) p = true.
Proof.
  unfold startsWith. induction p as [|c p IH].
  - by destruct s.
  - rewrite append_cons. simpl. destruct (ascii_dec c c); [exact IH | congruence].
Qed.

Lemma slice_app p s : slice (String.length p) (p +:+ s) = s.
Proof. induction p as [|c p IH]; [done | by rewrite append_cons]. Qed.

Lemma takeWhile_split p s :
  s = takeWhile p s +:+ slice (String.length (takeWhile p s)) s.
Proof.
  induction s as [|c s IH]; simpl; [done|].
  destruct (p c); simpl; [rewrite append_cons; congruence | done].
Qed.

Lemma takeWhile_forallb p s : forallb p (takeWhile p s) = true.
Proof.
  induction s as [|c s IH]; simpl; [done|].
  destruct (p c) eqn:E; simpl; [by rewrite E | done].
Qed.

Lemma takeWhile_rest p s :
  slice (String.length (takeWhile p s)) s = "" ∨
  ∃ c u, slice (String.length (takeWhile p s)) s = String c u ∧ p c = false.
Proof.
  induction s as [|c s IH]; simpl; [by left|].
  destruct (p c) eqn:E; simpl; [exact IH | right; eauto].
Qed.

Lemma get_length_app p s :
  String.get (String.length p) (p +:+ s) = String.get 0 s.
Proof. induction p as [|c p IH]; [done | by rewrite append_cons]. Qed.

Lemma isPathPrefix_app_end p : isPathPrefix (p +:+ "") p = true.
Proof.
  unfold isPathPrefix. rewrite startsWith_app, append_nil_r.
  by rewrite Nat.eqb_refl.
Qed.

Lemma isPathPrefix_app_slash p u : isPathPrefix (p +:+ String "/" u) p = true.
Proof.
  unfold isPathPrefix. rewrite startsWith_app, get_length_app. simpl.
  by rewrite orb_true_r.
Qed.

Lemma startsWith_slash_inv c t :
  startsWith (String c t) "/" = true → c = "/"%char.
Proof.
  unfold startsWith.
  change (prefix "/" (String c t))
    with (if ascii_dec "/"%char c then prefix "" t else false).
  destruct (ascii_dec _ _); [done | discriminate].
Qed.

(** ** [route-match.ts] *)

Lemma isPathPrefix_takeWhile_not_slash t :
  isPathPrefix t (Str.takeWhile Str.not_slash t) = true.
Proof.
  destruct (takeWhile_rest Str.not_slash t) as [E | (c & u & E & Hc)];
    rewrite (takeWhile_split Str.not_slash t) at 1; rewrite E.
  - apply isPathPrefix_app_end.
  - unfold Str.not_slash, Str.is_slash in Hc.
    apply negb_false_iff, Ascii.eqb_eq in Hc. subst c.
    apply isPathPrefix_app_slash.
Qed.

Lemma compile_star : Match.compile (PString "*") = Ok (PRegExp re_no_slash_star).
Proof. reflexivity. Qed.

(** What [_match] returns for a "*" node on a path that starts with "/". *)
Lemma star_match_eq name q t :
  ∃ n, Match.new name {| Match.match_ := PString "*"; Match.query := q |} = Ok n ∧
       Match._match n false (String "/" t) =
       Ok {| Match.current := Some (Str.takeWhile Str.not_slash t);
             Match.rest :=
               Str.slice (String.length (Str.takeWhile Str.not_slash t)) t |}.
Proof.
  eexists. split; [reflexivity|].
  unfold Match._match. cbn -[isPathPrefix Str.takeWhile String.length].
  rewrite isPathPrefix_takeWhile_not_slash. by destruct t.
Qed.

(** C4, as the claim states it, fails: on the path "/" the "*" pattern
    matches, and the segment it captures is the empty string. *)
Lemma star_matches_empty_segment :
  ∃ n, Match.new "item" {| Match.match_ := PString "*"; Match.query := None |} = Ok n ∧
       Match._match n false "/" =
       Ok {| Match.current := Some ""; Match.rest := "" |}.
Proof. eexists. split; reflexivity. Qed.

(** C4 (amended): whenever a node declared with the "*" pattern matches, it
    has consumed the leading "/" and exactly one segment, possibly empty:
    the captured segment contains no "/", the path is "/", the segment and
    the rest, and the rest is empty or starts with "/". *)
Theorem star_matches_one_segment name q n path r seg :
  Match.new name {| Match.match_ := PString "*"; Match.query := q |} = Ok n →
  Match._match n false path = Ok r →
  Match.current r = Some seg →
  path = "/" +:+ seg +:+ Match.rest r ∧
  Str.forallb Str.not_slash seg = true ∧
  (Match.rest r = "" ∨ ∃ u, Match.rest r = "/" +:+ u).
Proof.
  intros Hn Hm Hs.
  destruct (star_match_eq name q "") as (n' & Hn' & _).
  assert (n' = n) by congruence. subst n'. clear Hn'.
  destruct path as [|c t].
  { unfold Match._match in Hm. simpl in Hm. injection Hm as <-. discriminate. }
  destruct (Str.startsWith (String c t) "/") eqn:Hc.
  - apply startsWith_slash_inv in Hc as ->.
    destruct (star_match_eq name q t) as (n' & Hn' & Heq).
    assert (n' = n) by congruence. subst n'.
    rewrite Heq in Hm. injection Hm as <-. simpl in Hs. injection Hs as <-.
    simpl Match.rest. split; [|split].
    + change ("/" +:+ ?x) with (String "/" x). f_equal. apply takeWhile_split.
    + apply takeWhile_forallb.
    + destruct (takeWhile_rest Str.not_slash t) as [E | (c & u & E & Hc)];
        [by left | right].
      unfold Str.not_slash, Str.is_slash in Hc.
      apply negb_false_iff, Ascii.eqb_eq in Hc. subst c. by exists u.
  - unfold Match._match in Hm. cbn [Str.falsy orb] in Hm.
    rewrite Hc in Hm. discriminate.
Qed.

Lemma star_matches_one_segment_witness :
  ∃ n r,
    Match.new "item" {| Match.match_ := PString "*"; Match.query := None |} = Ok n ∧
    Match._match n false "/users/42" = Ok r ∧
    Match.current r = Some "users" ∧
    "/users/42" = "/" +:+ "users" +:+ Match.rest r.
Proof.
  eexists _, _. split; [reflexivity|]. split; [reflexivity|]. split; [reflexivity|].
  eapply (star_matches_one_segment "item" None _ "/users/42" _ "users");
    reflexivity.
Defined.

(** C5, as the claim states it, fails: the non-global pattern [/a/] matches
    "a" inside "ab", which is followed by neither "/" nor the end of the
    path; the constructor accepts it, building the tree succeeds, and the
    error is raised by [_match] when the path is matched. *)
Lemma regexp_misfit_not_raised_at_build :
  exec Examples.re_letter_a "ab" = Some "a" ∧
  isPathPrefix "ab" "a" = false ∧
  is_throw (Router.create
              [("item", Router.SchemaObject (Some (PRegExp Examples.re_letter_a))
                                            None None None None)]
              Examples.options) = false ∧
  ∃ n, Match.new "item" {| Match.match_ := PRegExp Examples.re_letter_a;
                           Match.query := None |} = Ok n ∧
       is_throw (Match._match n false "/ab") = true.
Proof. repeat split. eexists. split; reflexivity. Qed.

(** C5 (amended): the constructor accepts every non-global regular
    expression; when the text it matches in a path is not followed by "/" or
    the end of the path, [_match] raises the error at that moment, and does
    not report a no-match. *)
Theorem regexp_misfit_raised_at_match_time name r q t m :
  global r = false →
  exec r t = Some m →
  isPathPrefix t m = false →
  ∃ n, Match.new name {| Match.match_ := PRegExp r; Match.query := q |} = Ok n ∧
       Match._match n false ("/" +:+ t) =
       Throw "Invalid regular expression pattern, expecting rest of path to be started with '/' after match".
Proof.
  intros Hg He Hp. eexists. split.
  - unfold Match.new, Match.compile. simpl. rewrite Hg. reflexivity.
  - change ("/" +:+ t) with (String "/" t).
    unfold Match._match. cbn -[isPathPrefix]. rewrite He, Hp. by destruct t.
Qed.

Lemma regexp_misfit_raised_at_match_time_witness :
  ∃ n, Match.new "item" {| Match.match_ := PRegExp Examples.re_letter_a;
                           Match.query := None |} = Ok n ∧
       is_throw (Match._match n false "/ab") = true.
Proof.
  destruct (regexp_misfit_raised_at_match_time
              "item" Examples.re_letter_a None "ab" "a"
              eq_refl eq_refl eq_refl) as (n & Hn & Hm).
  exists n. split; [exact Hn|].
  change (is_throw (Match._match n false ("/" +:+ "ab")) = true).
  rewrite Hm. reflexivity.
Defined.

(** A global regular expression is refused by the constructor. *)
Lemma regexp_global_raised_at_build name r q :
  global r = true →
  is_throw (Match.new name {| Match.match_ := PRegExp r; Match.query := q |}) = true.
Proof. intros Hg. unfold Match.new, Match.compile. simpl. by rewrite Hg. Qed.

(** Before the first [_push], [$query] throws. *)
Lemma query_throws_before_push name o n :
  Match.new name o = Ok n → is_throw (Match.get_query n) = true.
Proof.
  unfold Match.new. destruct (Match.compile _); simpl; [|discriminate].
  by intros [= <-].
Qed.

(** After any [_push] that returns, [$query] returns a dictionary, whether
    or not the node declares query keys. *)
Lemma query_returns_after_push n skipped upperRest uf uq sq n' res :
  Match._push n skipped upperRest uf uq sq = Ok (n', res) →
  Match.get_query n' = Ok (Match.queryDict res).
Proof.
  unfold Match._push. destruct (Match._match _ _ _); simpl; [|discriminate].
  by intros [= <- <-].
Qed.

(** C7: the node [account] declares no query keys; once it has matched
    "/account", reading [$query] returns the empty dictionary and does not
    throw. *)
Theorem query_of_undeclared_keys_after_match :
  ∃ n n' res,
    Match.new "account" {| Match.match_ := PString "account"; Match.query := None |}
      = Ok n ∧
    Match._queryKeys n = None ∧
    is_throw (Match.get_query n) = true ∧
    Match._push n false "/account" ∅ ∅ ∅ = Ok (n', res) ∧
    Match.matched res = true ∧
    Match.get_query n' = Ok ∅.
Proof. eexists _, _, _. repeat split. Qed.

(** ** [router.ts]: matching *)

Import Node Router.

Section MatchFacts.

Variable node_match : RouteMatch -> string -> RouteMatchInternalResult.

Local Abbreviation _match := (Router._match node_match).
Local Abbreviation _match_child := (Router._match_child node_match).
Local Abbreviation entry_of := (Router.entry_of node_match).
Local Abbreviation completes := (Router.completes node_match).

(** The body of the loop, with the recursive call spelled as in the source:
    [this._match(routeMatch, rest)]. *)
Lemma _match_child_eq routeMatch upperRest :
  _match_child routeMatch upperRest =
  let r := node_match routeMatch upperRest in
  if negb (matched r) then None
  else if exactlyMatched r then Some [entry_of routeMatch upperRest true]
  else match _match (Node._children routeMatch) (rest r) with
       | None => None
       | Some result => Some (entry_of routeMatch upperRest false :: result)
       end.
Proof.
  destruct routeMatch as [nm rf pat qk ae g par children]. simpl.
  destruct (matched _); simpl; [|done].
  destruct (exactlyMatched _); simpl; [done|].
  set (u := rest _). clearbody u.
  assert (E : (fix loop (children : list RouteMatch) : option (list RouteMatchEntry) :=
                 match children with
                 | [] => None
                 | child :: children' =>
                     match _match_child child u with
                     | Some entries => Some entries
                     | None => loop children'
                     end
                 end) children = _match children u).
  { induction children as [|c cs IH]; simpl; [done|]. by rewrite IH. }
  by rewrite E.
Qed.

Lemma _match_child_completes routeMatch upperRest :
  is_Some (_match_child routeMatch upperRest) ↔ completes routeMatch upperRest = true.
Proof.
  rewrite _match_child_eq. unfold completes. simpl.
  destruct (matched _); simpl; [|by split; [intros [? ?]|]].
  destruct (exactlyMatched _); simpl; [by split; [|eexists]|].
  rewrite bool_decide_eq_true.
  destruct (_match _ _); split; eauto; intros [? ?]; done.
Qed.

Lemma _match_child_entries routeMatch upperRest entries :
  _match_child routeMatch upperRest = Some entries →
  ∃ tail,
    entries =
      entry_of routeMatch upperRest
        (exactlyMatched (node_match routeMatch upperRest)) :: tail.
Proof.
  rewrite _match_child_eq. simpl.
  destruct (matched _); simpl; [|done].
  destruct (exactlyMatched _); simpl; [intros [= <-]; by eexists|].
  destruct (_match _ _); [|done]. intros [= <-]. by eexists.
Qed.

Lemma _match_app_failed pre children upperRest :
  Forall (fun c => completes c upperRest = false) pre →
  _match (pre ++ children) upperRest = _match children upperRest.
Proof.
  induction 1 as [|c pre Hc _ IH]; simpl; [done|].
  destruct (_match_child c upperRest) eqn:E; [|done].
  assert (completes c upperRest = true) by (apply _match_child_completes; eauto).
  congruence.
Qed.

End MatchFacts.



(** ** [router.ts]: the transition *)

Lemma awaited_from_refl self : awaited_from self self.
Proof. by destruct self. Qed.

Lemma awaited_from_set l self : awaited_from self (set_nextLocation l self).
Proof. by destruct self. Qed.

Lemma awaited_from_trans a b c :
  awaited_from a b → awaited_from b c → awaited_from a c.
Proof. unfold awaited_from. intros -> ->. by destruct a. Qed.

Lemma awaited_from_fields self self' :
  awaited_from self self' →
  _source self' = _source self ∧ _matchingSource self' = _matchingSource self ∧
  _location self' = _location self ∧ _views self' = _views self ∧
  _default self' = _default self ∧ _onChange self' = _onChange self.
Proof. intros ->. by destruct self. Qed.

Lemma await_spec hooks k n self :
  ∃ self', await hooks k n self =
             (Hook k n (resolved (hooks k n)), resolved (hooks k n), self') ∧
           awaited_from self self'.
Proof.
  unfold await. destruct (requested _) as [l|].
  - exists (set_nextLocation (Some l) self). split; [done | apply awaited_from_set].
  - exists self. split; [done | apply awaited_from_refl].
Qed.

(** How a loop of before-hooks ends.  It falls through when every hook
    resolved to a truthy value with the location still the latest; otherwise
    it returns at the first hook [m] for which that is not so. *)
Lemma before_hooks_spec hooks kind nextLocation ms self evs self' ex :
  before_hooks hooks kind nextLocation ms self = (evs, self', ex) →
  awaited_from self self' ∧
  match ex with
  | None => evs = allowed kind ms
  | Some Superseded =>
      ∃ pre m post result,
        ms = pre ++ m :: post ∧
        evs = allowed kind pre ++ [Hook (kind m) m (Some result)] ∧
        _isNextLocationOutDated self' nextLocation = true
  | Some Reverted =>
      ∃ pre m post,
        ms = pre ++ m :: post ∧
        evs = allowed kind pre ++ [Hook (kind m) m (Some false); _revert self] ∧
        _isNextLocationOutDated self' nextLocation = false
  | Some Rejected =>
      ∃ pre m post,
        ms = pre ++ m :: post ∧
        evs = allowed kind pre ++ [Hook (kind m) m None]
  | Some _ => False
  end.
Proof.
  revert self evs self' ex.
  induction ms as [|m ms IH]; intros self evs self' ex; cbn [before_hooks].
  { intros [= <- <- <-]. split; [apply awaited_from_refl | done]. }
  destruct (await_spec hooks (kind m) m self) as (s1 & -> & H1).
  destruct (resolved (hooks (kind m) m)) as [result|].
  2:{ intros [= <- <- <-]. split; [done|]. by exists [], m, ms. }
  destruct (_isNextLocationOutDated s1 nextLocation) eqn:Hout.
  { intros [= <- <- <-]. split; [done|]. by exists [], m, ms, result. }
  destruct result; simpl.
  2:{ intros [= <- <- <-]. split; [done|]. exists [], m, ms.
      split; [done|]. split; [|done]. simpl. unfold _revert.
      apply awaited_from_fields in H1 as (_ & _ & -> & _ & -> & _). done. }
  destruct (before_hooks hooks kind nextLocation ms s1) as [[evs0 s2] ex0] eqn:E.
  intros [= <- <- <-].
  apply IH in E as [H2 Hex]. split; [by eapply awaited_from_trans|].
  assert (Hrev : _revert s1 = _revert self).
  { unfold _revert.
    by apply awaited_from_fields in H1 as (_ & _ & -> & _ & -> & _). }
  destruct ex0 as [[]|]; try done.
  - destruct Hex as (pre & m' & post & result & -> & -> & Ho).
    by exists (m :: pre), m', post, result.
  - destruct Hex as (pre & m' & post & -> & -> & Ho).
    exists (m :: pre), m', post. by rewrite <- Hrev.
  - destruct Hex as (pre & m' & post & -> & ->).
    by exists (m :: pre), m', post.
  - by subst.
Qed.

(** A loop of after-hooks awaits hooks of its matches only, and ends by
    falling through or at a hook that rejects. *)
Lemma after_hooks_spec hooks kind ms self evs self' ex :
  after_hooks hooks kind ms self = (evs, self', ex) →
  awaited_from self self' ∧
  Forall (fun ev => ∃ m r, m ∈ ms ∧ ev = Hook (kind m) m r) evs ∧
  (ex = None ∨ ex = Some Rejected).
Proof.
  revert self evs self' ex.
  induction ms as [|m ms IH]; intros self evs self' ex; cbn [after_hooks].
  { intros [= <- <- <-]. split; [apply awaited_from_refl|]. split; [constructor|by left]. }
  destruct (await_spec hooks (kind m) m self) as (s1 & -> & H1).
  assert (Hm : ∃ m0 r, m0 ∈ m :: ms ∧
                       Hook (kind m) m (resolved (hooks (kind m) m)) = Hook (kind m0) m0 r)
    by (eexists _, _; split; [apply list_elem_of_here | done]).
  destruct (resolved (hooks (kind m) m)) as [result|].
  2:{ intros [= <- <- <-]. split; [done|]. split; [by repeat constructor | by right]. }
  destruct (after_hooks hooks kind ms s1) as [[evs0 s2] ex0] eqn:E.
  intros [= <- <- <-].
  apply IH in E as (H2 & Hevs & Hex).
  split; [by eapply awaited_from_trans|]. split; [|done].
  constructor; [done|].
  eapply Forall_impl; [exact Hevs|].
  intros ev (m0 & r & Hin & ->). exists m0, r. split; [by apply list_elem_of_further | done].
Qed.

(** The loops of "Update" write views and nothing else. *)
Lemma update_all_spec leavingMatches entries self evs self' :
  update_all leavingMatches entries self = (evs, self') →
  self' = set_views (_views self') self ∧
  evs = update_events leavingMatches entries.
Proof.
  unfold update_all. intros [= <- <-]. split; [|done].
  set (f := fun (self : Router) m => _update m false false self).
  set (g := fun (self : Router) (me : NodeRef * RouteMatchEntry) =>
              _update me.1 true (exact me.2) self).
  assert (Hf : ∀ ms s, foldl f s ms = set_views (_views (foldl f s ms)) s).
  { induction ms as [|m ms IH]; intros s; simpl; [by destruct s|].
    rewrite IH at 1. by destruct s. }
  assert (Hg : ∀ ms s, foldl g s ms = set_views (_views (foldl g s ms)) s).
  { induction ms as [|m ms IH]; intros s; simpl; [by destruct s|].
    rewrite IH at 1. by destruct s. }
  rewrite Hg, (Hf leavingMatches self). by destruct self.
Qed.

Lemma update_events_are_updates leavingMatches entries :
  Forall (fun ev => is_update ev = true) (update_events leavingMatches entries).
Proof. apply Forall_app. split; apply Forall_fmap, Forall_true; done. Qed.

Section RunFacts.

Variable node_match : RouteMatch -> string -> RouteMatchInternalResult.
Variable URLSearchParams : string -> list (string * string).

Local Abbreviation run := (_asyncOnLocationChange node_match URLSearchParams).
Local Abbreviation next_source := (Router.next_source node_match URLSearchParams).
Local Abbreviation leavingMatches :=
  (reversedLeavingMatches node_match URLSearchParams).
Local Abbreviation enteringMatches :=
  (enteringAndUpdatingMatchSet node_match URLSearchParams).

Local Abbreviation stopped_at := (Router.stopped_at node_match URLSearchParams).
Local Abbreviation committed := (Router.committed node_match URLSearchParams).

(** The run from the commit on: it ends at the end of the function or at an
    after-hook that rejects, with the speculative snapshot committed. *)
Lemma commit_and_notify_spec hooks start nextLocation self evs self' ex :
  awaited_from (set_matchingSource (next_source start nextLocation) start) self →
  commit_and_notify node_match URLSearchParams hooks start nextLocation self
    = (evs, self', ex) →
  (ex = Finished ∨ ex = Rejected) ∧
  _location self' = Some nextLocation ∧
  _source self' = next_source start nextLocation ∧
  _matchingSource self' = next_source start nextLocation ∧
  ∃ evsA,
    evs = update_events (leavingMatches start nextLocation)
            (matchToMatchEntryMap (next_source start nextLocation)) ++ evsA ∧
    Forall (fun ev =>
              is_on_change ev = true ∨
              is_after_hook ev = true ∧
              ∃ m, hook_node ev = Some m ∧
                   (m ∈ leavingMatches start nextLocation ∨
                    m ∈ enteringMatches start nextLocation)) evsA.
Proof.
  intros A02. unfold commit_and_notify. cbv zeta.
  set (lv := leavingMatches start nextLocation).
  set (eu := enteringMatches start nextLocation).
  set (s3 := set_source _ (set_location _ self)).
  destruct (update_all lv (matchToMatchEntryMap (next_source start nextLocation)) s3)
    as [evs3 s4] eqn:U.
  apply update_all_spec in U as [U ->].
  destruct (after_hooks hooks (fun _ => AfterLeave) lv s4) as [[evs4 s5] ex4] eqn:F4.
  apply after_hooks_spec in F4 as (A4 & F4 & Hex4).
  assert (Hfields : ∀ s, awaited_from s4 s →
            _location s = Some nextLocation ∧
            _source s = next_source start nextLocation ∧
            _matchingSource s = next_source start nextLocation).
  { intros s Hs.
    apply awaited_from_fields in Hs as (-> & -> & -> & _).
    rewrite U. unfold s3.
    apply awaited_from_fields in A02 as (_ & Hm & _).
    simpl. rewrite Hm. by destruct start. }
  assert (F4' : Forall (fun ev =>
              is_on_change ev = true ∨
              is_after_hook ev = true ∧
              ∃ m, hook_node ev = Some m ∧ (m ∈ lv ∨ m ∈ eu)) evs4).
  { eapply Forall_impl; [exact F4|]. intros ev (m & r & Hin & ->).
    right. split; [done|]. exists m. auto. }
  destruct ex4 as [e4|].
  { intros [= <- <- <-]. destruct Hex4 as [|[= ->]]; [done|].
    split; [by right|]. destruct (Hfields s5 A4) as (? & ? & ?).
    repeat (split; [done|]). by exists evs4. }
  destruct (after_hooks hooks (afterKind start) eu s5) as [[evs5 s6] ex5] eqn:F5.
  apply after_hooks_spec in F5 as (A5 & F5 & Hex5).
  assert (A46 : awaited_from s4 s6) by (by eapply awaited_from_trans).
  destruct (Hfields s6 A46) as (? & ? & ?).
  assert (F5' : Forall (fun ev =>
              is_on_change ev = true ∨
              is_after_hook ev = true ∧
              ∃ m, hook_node ev = Some m ∧ (m ∈ lv ∨ m ∈ eu)) evs5).
  { eapply Forall_impl; [exact F5|]. intros ev (m & r & Hin & ->).
    right. split; [by unfold afterKind; simpl; destruct (set_has _ _)|].
    exists m. auto. }
  destruct ex5 as [e5|].
  { intros [= <- <- <-]. destruct Hex5 as [|[= ->]]; [done|].
    split; [by right|]. repeat (split; [done|]). exists (evs4 ++ evs5).
    split; [done|]. by apply Forall_app. }
  intros [= <- <- <-]. split; [by left|].
  repeat (split; [done|]).
  eexists (evs4 ++ evs5 ++ _). split; [done|].
  apply Forall_app; split; [done|]. apply Forall_app; split; [done|].
  destruct (_onChange s6); repeat constructor.
Qed.

(** Every way in which a run of [_asyncOnLocationChange] ends, with the
    events it has produced and the router it leaves. *)
Lemma run_spec hooks self nextLocation evs self' ex :
  run hooks self nextLocation = (evs, self', ex) →
  match ex with
  | OutDated =>
      evs = [] ∧ self' = self ∧ _isNextLocationOutDated self nextLocation = true
  | SameLocation =>
      evs = [] ∧ self' = self ∧
      ∃ l, _location self = Some l ∧ isLocationEqual l nextLocation = true
  | OutOfPrefix =>
      self' = self ∧
      evs = (if _onLeave self then [OnLeave (pathname nextLocation)] else [])
  | Superseded =>
      awaited_from (set_matchingSource (next_source self nextLocation) self) self' ∧
      _isNextLocationOutDated self' nextLocation = true ∧
      ∃ result,
        stopped_at self nextLocation (fun k m => [Hook k m (Some result)]) evs
  | Reverted =>
      awaited_from (set_matchingSource (next_source self nextLocation) self) self' ∧
      _isNextLocationOutDated self' nextLocation = false ∧
      stopped_at self nextLocation
        (fun k m => [Hook k m (Some false); _revert self]) evs
  | Rejected =>
      awaited_from (set_matchingSource (next_source self nextLocation) self) self' ∧
      stopped_at self nextLocation (fun k m => [Hook k m None]) evs
      ∨ committed self nextLocation evs self'
  | Finished => committed self nextLocation evs self'
  end.
Proof.
  unfold _asyncOnLocationChange.
  destruct (_isNextLocationOutDated self nextLocation) eqn:Hout.
  { by intros [= <- <- <-]. }
  destruct (match _location self with
            | Some l => isLocationEqual l nextLocation
            | None => false
            end) eqn:Hsame.
  { intros [= <- <- <-]. destruct (_location self) as [l|]; [|done].
    repeat split; eauto. }
  destruct (negb (testPathPrefix _ _)).
  { by intros [= <- <- <-]. }
  cbv zeta.
  set (s0 := set_matchingSource (next_source self nextLocation) self).
  set (lv := leavingMatches self nextLocation).
  set (eu := enteringMatches self nextLocation).
  assert (Hrev : _revert s0 = _revert self) by (by destruct self).
  destruct (before_hooks hooks (fun _ => BeforeLeave) nextLocation lv s0)
    as [[evs1 s1] ex1] eqn:B1.
  apply before_hooks_spec in B1 as [A1 B1].
  destruct ex1 as [e1|].
  { intros [= <- <- <-]. destruct e1; try done.
    - destruct B1 as (pre & m & post & result & Hl & -> & Ho).
      split; [done|]. split; [done|]. exists result. left. by exists pre, m, post.
    - destruct B1 as (pre & m & post & Hl & -> & Ho).
      split; [done|]. split; [done|]. left. exists pre, m, post. by rewrite <- Hrev.
    - destruct B1 as (pre & m & post & Hl & ->).
      left. split; [done|]. left. by exists pre, m, post. }
  subst evs1.
  destruct (before_hooks hooks (beforeKind self) nextLocation eu s1)
    as [[evs2 s2] ex2] eqn:B2.
  apply before_hooks_spec in B2 as [A2 B2].
  assert (A02 : awaited_from s0 s2) by (by eapply awaited_from_trans).
  assert (Hrev1 : _revert s1 = _revert self).
  { rewrite <- Hrev. unfold _revert.
    by apply awaited_from_fields in A1 as (_ & _ & -> & _ & -> & _). }
  destruct ex2 as [e2|].
  { intros [= <- <- <-]. destruct e2; try done.
    - destruct B2 as (pre & m & post & result & Hl & -> & Ho).
      split; [done|]. split; [done|]. exists result. right. by exists pre, m, post.
    - destruct B2 as (pre & m & post & Hl & -> & Ho).
      split; [done|]. split; [done|]. right. exists pre, m, post. by rewrite <- Hrev1.
    - destruct B2 as (pre & m & post & Hl & ->).
      left. split; [done|]. right. by exists pre, m, post. }
  subst evs2.
  destruct (commit_and_notify node_match URLSearchParams hooks self nextLocation s2)
    as [[evsT s'] eT] eqn:T.
  apply commit_and_notify_spec in T as (HeT & ? & ? & ? & evsA & -> & HA); [|done].
  intros [= <- <- <-].
  assert (Hc : committed self nextLocation
                 (allowed (fun _ => BeforeLeave) lv ++
                  allowed (beforeKind self) eu ++
                  update_events lv (matchToMatchEntryMap (next_source self nextLocation))
                  ++ evsA) s').
  { repeat (split; [done|]). by exists evsA. }
  destruct HeT as [-> | ->]; [done | by right].
Qed.

End RunFacts.

(** *** Events of the phases *)

Lemma allowed_Forall (P : Event → Prop) kind ms :
  (∀ m, P (Hook (kind m) m (Some true))) → Forall P (allowed kind ms).
Proof. intros HP. apply Forall_fmap, Forall_true. intros m. apply HP. Qed.

(** In a run that got to the commit, no before-hook resolved to a falsy
    value. *)
Lemma committed_no_veto node_match URLSearchParams self nextLocation evs self' :
  committed node_match URLSearchParams self nextLocation evs self' →
  Forall (fun ev => is_veto ev = false) evs.
Proof.
  intros (_ & _ & _ & evsA & -> & HA).
  apply Forall_app; split; [by apply allowed_Forall|].
  apply Forall_app; split; [by apply allowed_Forall|].
  apply Forall_app; split.
  - eapply Forall_impl; [apply update_events_are_updates|]. by intros [].
  - eapply Forall_impl; [exact HA|].
    intros [k m [[]|]| | | |]; simpl; try done.
    intros [|[Hk _]]; [done|]. by destruct k.
Qed.

(** The events of a before-phase that returned: awaited hooks, followed by
    what the phase ended with. *)
Lemma stopped_at_inv node_match URLSearchParams self nextLocation last evs :
  stopped_at node_match URLSearchParams self nextLocation last evs →
  ∃ evs0 k m,
    evs = evs0 ++ last k m ∧ is_before k = true ∧
    Forall (fun ev => ∃ k' m', ev = Hook k' m' (Some true)) evs0.
Proof.
  intros [(pre & m & post & _ & ->) | (pre & m & post & _ & ->)].
  - exists (allowed (fun _ => BeforeLeave) pre), BeforeLeave, m.
    split; [done|]. split; [done|]. apply allowed_Forall. eauto.
  - eexists (_ ++ allowed (beforeKind self) pre), (beforeKind self m), m.
    split; [by rewrite <- app_assoc|].
    split; [by unfold beforeKind; destruct (set_has _ _)|].
    apply Forall_app; split; apply allowed_Forall; eauto.
Qed.

(** C1, as the claim states it, fails: with "/about" committed, the
    [beforeEnter] hook of [redirect] requests "/about" anew and resolves to a
    falsy value; the run ends at the check for a newer location, and the
    history provider is not asked to replace anything. *)
Lemma veto_after_newer_request_is_not_reverted :
  let self :=
    (Examples.navigate Examples.allow_all
       (Examples.router_of Examples.hooks_schema)
       (Examples.at_ 1 "/about" "")).1.2 in
  let run := Examples.navigate Examples.redirect_to_about self
               (Examples.at_ 2 "/redirect" "") in
  _location self = Some (Examples.at_ 1 "/about" "") ∧
  run.1.1 = [ Hook BeforeLeave ["about"] (Some true);
              Hook BeforeEnter ["redirect"] (Some false) ] ∧
  Exists (fun ev => is_veto ev = true) run.1.1 ∧
  Forall (fun ev => is_replace ev = false) run.1.1.
Proof.
  split; [reflexivity|]. split; [reflexivity|]. split.
  - apply Exists_cons_tl, Exists_cons_hd. reflexivity.
  - by repeat constructor.
Qed.

(** C1 (amended): in every transition in which a [beforeLeave],
    [beforeEnter] or [beforeUpdate] hook resolves to a falsy value, the
    engine does not commit: the committed snapshot, the committed location
    and the nodes' observable fields are what they were, and no node is
    updated.  If the location of the transition is still the latest requested
    one, the run ends by asking the history provider, once, to replace the
    current location with the last committed location, or with the default
    location when nothing is committed; if a newer location has been
    requested in the meantime, it ends without asking for anything. *)
Theorem veto_does_not_commit node_match URLSearchParams hooks self nextLocation
    evs self' ex :
  _asyncOnLocationChange node_match URLSearchParams hooks self nextLocation
    = (evs, self', ex) →
  Exists (fun ev => is_veto ev = true) evs →
  _source self' = _source self ∧
  _location self' = _location self ∧
  _views self' = _views self ∧
  Forall (fun ev => is_update ev = false) evs ∧
  (ex = Reverted ∧
   _isNextLocationOutDated self' nextLocation = false ∧
   (∃ evs0,
      evs = evs0 ++ [HistoryReplace (default (_default self) (_location self))] ∧
      Forall (fun ev => is_replace ev = false) evs0)
   ∨
   ex = Superseded ∧
   _isNextLocationOutDated self' nextLocation = true ∧
   Forall (fun ev => is_replace ev = false) evs).
Proof.
  intros Hrun Hveto. apply run_spec in Hrun.
  assert (Hno : ∀ P : Prop, Forall (fun ev => is_veto ev = false) evs → P).
  { intros P HF. exfalso. apply Exists_exists in Hveto as (ev & Hin & Hv).
    rewrite Forall_forall in HF. specialize (HF ev Hin). congruence. }
  assert (Hfields : awaited_from
            (set_matchingSource
               (next_source node_match URLSearchParams self nextLocation) self) self' →
          _source self' = _source self ∧ _location self' = _location self ∧
          _views self' = _views self).
  { intros (-> & _ & -> & -> & _)%awaited_from_fields. by destruct self. }
  assert (Hhooks : ∀ (P : Event → Prop) evs0,
            (∀ k m r, P (Hook k m r)) →
            Forall (fun ev => ∃ k' m', ev = Hook k' m' (Some true)) evs0 →
            Forall P evs0).
  { intros P evs0 HP HF. eapply Forall_impl; [exact HF|].
    intros ev (k & m & ->). apply HP. }
  destruct ex.
  - destruct Hrun as (-> & _). apply Hno. constructor.
  - destruct Hrun as (-> & _). apply Hno. constructor.
  - destruct Hrun as (_ & ->). apply Hno. destruct (_onLeave self); repeat constructor.
  - destruct Hrun as (Ha & Ho & result & Hs).
    apply stopped_at_inv in Hs as (evs0 & k & m & -> & Hk & H0).
    destruct (Hfields Ha) as (? & ? & ?). repeat (split; [done|]).
    split; [|right; repeat (split; [done|])].
    + apply Forall_app. split; [by apply Hhooks | by repeat constructor].
    + apply Forall_app. split; [by apply Hhooks | by repeat constructor].
  - destruct Hrun as (Ha & Ho & Hs).
    apply stopped_at_inv in Hs as (evs0 & k & m & -> & Hk & H0).
    destruct (Hfields Ha) as (? & ? & ?). repeat (split; [done|]).
    split; [|left; repeat (split; [done|])].
    + apply Forall_app. split; [by apply Hhooks | by repeat constructor].
    + exists (evs0 ++ [Hook k m (Some false)]). split; [by rewrite <- app_assoc|].
      apply Forall_app. split; [by apply Hhooks | by repeat constructor].
  - destruct Hrun as [(Ha & Hs) | Hc].
    + apply stopped_at_inv in Hs as (evs0 & k & m & -> & Hk & H0).
      apply Hno. apply Forall_app. split; [|by repeat constructor].
      eapply Forall_impl; [exact H0|]. by intros ev (k' & m' & ->).
    + apply Hno. by eapply committed_no_veto.
  - apply Hno. by eapply committed_no_veto.
Qed.

Lemma veto_does_not_commit_witness :
  let self :=
    (Examples.navigate Examples.allow_all
       (Examples.router_of Examples.hooks_schema)
       (Examples.at_ 1 "/about" "")).1.2 in
  let run := Examples.navigate Examples.veto_revert self
               (Examples.at_ 2 "/revert" "") in
  Exists (fun ev => is_veto ev = true) run.1.1 ∧
  _source run.1.2 = _source self ∧
  _location run.1.2 = Some (Examples.at_ 1 "/about" "").
Proof.
  intros self run.
  assert (Hv : Exists (fun ev => is_veto ev = true) run.1.1).
  { apply Exists_cons_tl, Exists_cons_hd. reflexivity. }
  split; [exact Hv|].
  destruct (veto_does_not_commit spec_node_match simple_URLSearchParams
              Examples.veto_revert
              (_onLocationChange self (Examples.at_ 2 "/revert" ""))
              (Examples.at_ 2 "/revert" "") run.1.1 run.1.2 run.2
              eq_refl Hv) as (Hs & Hl & _).
  split; [exact Hs | exact Hl].
Defined.

(** C3: processing a location that is structurally equal to the last
    committed one is a no-op.  The run awaits no hook and updates no node
    (it produces no event at all) and leaves the router as it is, the
    committed and the speculative snapshot and the nodes' observable fields
    included; and handing the location over to [_onLocationChange]
    beforehand changes none of these either. *)
Theorem same_location_is_noop node_match URLSearchParams hooks self l nextLocation :
  _location self = Some l →
  isLocationEqual l nextLocation = true →
  (∃ ex, _asyncOnLocationChange node_match URLSearchParams hooks self nextLocation
         = ([], self, ex)) ∧
  _asyncOnLocationChange node_match URLSearchParams hooks
    (_onLocationChange self nextLocation) nextLocation
  = ([], _onLocationChange self nextLocation, SameLocation) ∧
  _source (_onLocationChange self nextLocation) = _source self ∧
  _matchingSource (_onLocationChange self nextLocation) = _matchingSource self ∧
  _views (_onLocationChange self nextLocation) = _views self ∧
  _location (_onLocationChange self nextLocation) = _location self.
Proof.
  intros Hl He. split; [|split].
  - unfold _asyncOnLocationChange.
    destruct (_isNextLocationOutDated self nextLocation); [by eexists|].
    rewrite Hl, He. by eexists.
  - unfold _asyncOnLocationChange, _isNextLocationOutDated, _onLocationChange.
    simpl. rewrite Nat.eqb_refl. simpl. by rewrite Hl, He.
  - by destruct self.
Qed.

Lemma same_location_is_noop_witness :
  let self :=
    (Examples.navigate Examples.allow_all
       (Examples.router_of Examples.hooks_schema)
       (Examples.at_ 1 "/about" "")).1.2 in
  Examples.navigate Examples.veto_revert self (Examples.at_ 2 "/about" "")
  = ([], _onLocationChange self (Examples.at_ 2 "/about" ""), SameLocation).
Proof.
  intros self.
  exact (proj1 (proj2 (same_location_is_noop
                         spec_node_match simple_URLSearchParams
                         Examples.veto_revert self
                         (Examples.at_ 1 "/about" "")
                         (Examples.at_ 2 "/about" "")
                         eq_refl eq_refl))).
Defined.



(** ** [router.ts]: group slots *)

Section MapFacts.
Context {K V : Type} `{EqDecision K}.

Lemma elem_of_map_set (k : K) (v : V) (m : list (K * V)) (x : K * V) :
  x ∈ map_set k v m → x = (k, v) ∨ x ∈ m.
Proof.
  induction m as [|[k' v'] m IH]; simpl.
  - intros ->%list_elem_of_singleton. by left.
  - destruct (decide (k' = k)) as [->|].
    + intros [->|Hx]%elem_of_cons; [by left|].
      right. by apply list_elem_of_further.
    + intros [->|Hx]%elem_of_cons; [right; apply list_elem_of_here|].
      destruct (IH Hx); [by left|]. right. by apply list_elem_of_further.
Qed.

Lemma map_get_map_set_ne (k k' : K) (v : V) (m : list (K * V)) :
  k' ≠ k → map_get k (map_set k' v m) = map_get k m.
Proof.
  intros Hne. induction m as [|[k0 v0] m IH]; simpl.
  - by destruct (decide (k' = k)).
  - destruct (decide (k0 = k')) as [->|]; simpl.
    + by destruct (decide (k' = k)).
    + by rewrite IH.
Qed.

Lemma map_get_Some_elem (k : K) (v : V) (m : list (K * V)) :
  map_get k m = Some v → (k, v) ∈ m.
Proof.
  induction m as [|[k0 v0] m IH]; simpl; [done|].
  destruct (decide (k0 = k)) as [->|].
  - intros [= ->]. apply list_elem_of_here.
  - intros Hm. by apply list_elem_of_further, IH.
Qed.

(** An invariant of the elements of a map built by a loop. *)
Lemma foldl_elem_invariant {A B} (f : list A → B → list A)
    (P : A → Prop) (l : list B) (init : list A) :
  (∀ acc b x, b ∈ l → (∀ y, y ∈ acc → P y) → x ∈ f acc b → P x) →
  (∀ y, y ∈ init → P y) →
  ∀ x, x ∈ foldl f init l → P x.
Proof.
  revert init. induction l as [|b l IH]; intros init Hstep Hinit; simpl; [done|].
  apply IH.
  - intros acc b' x Hb'. apply Hstep. by apply list_elem_of_further.
  - intros y. apply Hstep; [apply list_elem_of_here | done].
Qed.

End MapFacts.

Section GroupFacts.

Variable node_match : RouteMatch -> string -> RouteMatchInternalResult.
Variable URLSearchParams : string -> list (string * string).

Local Abbreviation _match := (Router._match node_match).
Local Abbreviation match_parallel := (Router.match_parallel node_match).
Local Abbreviation next_source := (Router.next_source node_match URLSearchParams).
Local Abbreviation route_paths := (Router.route_paths URLSearchParams).

(** A slot of [groupToMatchEntriesMap] holds the chain matched for the path
    of that slot, and the group of the first node of the chain is the
    slot. *)
Lemma match_parallel_elem children pathInfos g entries :
  (g, entries) ∈ match_parallel children pathInfos →
  ∃ info first rest,
    info ∈ pathInfos ∧ pi_group info = g ∧
    _match children (path info) = Some entries ∧
    entries = first :: rest ∧
    Node.group (match_ first) = g.
Proof.
  unfold Router.match_parallel.
  apply (foldl_elem_invariant _
           (fun ge => ∃ info first rest,
              info ∈ pathInfos ∧ pi_group info = ge.1 ∧
              _match children (path info) = Some ge.2 ∧
              ge.2 = first :: rest ∧ Node.group (match_ first) = ge.1)).
  - intros acc info x Hin Hacc.
    destruct (_match children (path info)) as [[|first rest]|] eqn:E; simpl; auto.
    case_bool_decide as Hg; [auto|].
    intros [->|Hx]%elem_of_map_set; [|auto].
    exists info, first, rest. simpl. repeat split; try done.
  - by intros y Hy%elem_of_nil.
Qed.

(** An entry of the merged map belongs to the chain of one of the slots. *)
Lemma merge_entries_elem groupToMatchEntriesMap n e :
  (n, e) ∈ merge_entries groupToMatchEntriesMap →
  n = ref (match_ e) ∧
  ∃ g entries, (g, entries) ∈ groupToMatchEntriesMap ∧ e ∈ entries.
Proof.
  unfold merge_entries.
  destruct (map_get None groupToMatchEntriesMap) as [[|primaryEntry ?]|];
    [by intros ?%elem_of_nil | | by intros ?%elem_of_nil].
  set (matchEntries := match _parallel _ with Some _ => _ | None => _ end).
  intros Hin.
  assert (Hne : n = ref (match_ e) ∧ e ∈ matchEntries).
  { revert Hin.
    apply (foldl_elem_invariant _
             (fun ne => ne.1 = ref (match_ ne.2) ∧ ne.2 ∈ matchEntries)
             matchEntries []).
    - intros acc entry x Hentry Hacc [->|Hx]%elem_of_map_set; auto.
    - by intros y Hy%elem_of_nil. }
  destruct Hne as [-> He]. split; [done|].
  unfold matchEntries in He. clear Hin matchEntries.
  destruct (_parallel _) as [whitelist|].
  - revert He.
    apply (foldl_elem_invariant _
             (fun e => ∃ g entries, (g, entries) ∈ groupToMatchEntriesMap ∧ e ∈ entries)
             groupToMatchEntriesMap []).
    + intros acc [g entries] x Hge Hacc. simpl.
      destruct (whitelisted _ _ _); [|auto].
      intros [Hx|Hx]%elem_of_app; [auto|]. by exists g, entries.
    + by intros y Hy%elem_of_nil.
  - apply list_elem_of_In, in_concat in He as (entries & Hes & He).
    apply list_elem_of_In, list_elem_of_fmap in Hes as ([g entries'] & -> & Hge).
    exists g, entries'. split; [done|]. by apply list_elem_of_In.
Qed.

End GroupFacts.

(** *** Groups along a chain *)

(** Induction on route trees. *)
Lemma RouteMatch_tree_ind (P : RouteMatch → Prop) :
  (∀ n, Forall P (Node._children n) → P n) → ∀ n, P n.
Proof.
  intros H. fix IH 1. intros n. apply H.
  destruct n as [nm rf pat qk ae g par children]. simpl.
  induction children as [|c cs IHcs]; constructor; [apply IH | exact IHcs].
Qed.

Lemma inherits_group_children n :
  inherits_group n ↔
  Forall (fun c => Node.group c = Node.group n ∧ inherits_group c) (Node._children n).
Proof.
  destruct n as [nm rf pat qk ae g par children]. simpl.
  induction children as [|c cs IH].
  - split; [constructor | done].
  - split.
    + intros [Hc Hcs]. constructor; [done | by apply IH].
    + intros [Hc Hcs]%Forall_cons. split; [done | by apply IH].
Qed.

Section InheritFacts.

Variable node_match : RouteMatch -> string -> RouteMatchInternalResult.

Local Abbreviation _match := (Router._match node_match).
Local Abbreviation _match_child := (Router._match_child node_match).

(** The chain returned for a list of siblings is the chain of one of
    them. *)
Lemma _match_Some_child children upperRest entries :
  _match children upperRest = Some entries →
  ∃ c, c ∈ children ∧ _match_child c upperRest = Some entries.
Proof.
  induction children as [|c cs IH]; simpl; [done|].
  destruct (_match_child c upperRest) as [es|] eqn:E.
  - intros [= <-]. exists c. split; [apply list_elem_of_here | done].
  - intros (c' & Hin & Hc')%IH. exists c'. split; [by apply list_elem_of_further | done].
Qed.

(** In a tree whose nodes inherit their group, every node of a chain has the
    group of the chain's first node. *)
Lemma chain_inherits_group n upperRest entries :
  inherits_group n →
  _match_child n upperRest = Some entries →
  Forall (fun e => Node.group (match_ e) = Node.group n) entries.
Proof.
  revert upperRest entries.
  induction n as [n IH] using RouteMatch_tree_ind. intros upperRest entries Hn.
  rewrite _match_child_eq. cbv zeta.
  destruct (matched _); simpl; [|done].
  destruct (exactlyMatched _); simpl; [intros [= <-]; by repeat constructor|].
  destruct (Router._match node_match (Node._children n) _) as [result|] eqn:E; [|done].
  intros [= <-]. constructor; [done|].
  apply _match_Some_child in E as (c & Hin & Hc).
  apply inherits_group_children in Hn.
  rewrite Forall_forall in IH, Hn.
  destruct (Hn c Hin) as [Hg Hc'].
  eapply Forall_impl; [by eapply IH|]. simpl. congruence.
Qed.

End InheritFacts.

(** Induction on schemas. *)
Lemma RouteSchema_tree_ind (P : RouteSchema → Prop) :
  (∀ b, P (SchemaBool b)) →
  (∀ m q e g, P (SchemaObject m q e g None)) →
  (∀ m q e g dict,
     Forall (fun ks => P ks.2) dict → P (SchemaObject m q e g (Some dict))) →
  ∀ s, P s.
Proof.
  intros Hb Hn Hd. fix IH 1. intros [b | m q e g [dict|]]; [apply Hb | | apply Hn].
  apply Hd. induction dict as [|[k s] dict IHd]; constructor; [apply IH | exact IHd].
Qed.

Lemma no_nested_group_children m q e g dict :
  no_nested_group (SchemaObject m q e g (Some dict)) ↔
  Forall (fun ks =>
            match ks.2 with
            | SchemaBool _ => True
            | SchemaObject _ _ _ g' _ => g' = None
            end ∧ no_nested_group ks.2) dict.
Proof.
  simpl. induction dict as [|[k [b | m' q' e' g' c']] dict IH].
  - split; [constructor | done].
  - rewrite Forall_cons, <- IH. simpl. tauto.
  - rewrite Forall_cons, <- IH. simpl. tauto.
Qed.

(** The loop over [$children] is [_build] on the children. *)
Lemma build_entry_eq segmentMatcher parent parentGroup key m q e g children :
  build_entry segmentMatcher parent parentGroup key (SchemaObject m q e g children) =
  (let group := default parentGroup g in
   let match_ := default (PString (segmentMatcher key)) m in
   _ ← Match.compile match_;
   routeMatches ←
     match children with
     | None => Ok []
     | Some dict => _build segmentMatcher dict (key :: parent) group
     end;
   new_RouteMatch key parent match_ q (default false e) group routeMatches).
Proof.
  simpl. destruct (Match.compile _); simpl; [|done].
  destruct children as [dict|]; [|done].
  set (inner := fix build_dict (dict : list (string * RouteSchema)) := _).
  assert (E : inner dict
              = _build segmentMatcher dict (key :: parent) (default parentGroup g)).
  { induction dict as [|[k s] dict IH]; simpl; [done|]. by rewrite IH. }
  by rewrite E.
Qed.

Lemma new_RouteMatch_inv key parent match_ query exact group children n :
  new_RouteMatch key parent match_ query exact group children = Ok n →
  Node.group n = group ∧ Node._children n = children ∧ ref n = key :: parent.
Proof.
  unfold new_RouteMatch. destruct (Match.compile _); simpl; [|done].
  by intros [= <-].
Qed.

(** The tree built from schema entries that declare no group below the top
    level inherits its groups. *)
Lemma build_entry_inherits segmentMatcher schema :
  ∀ parent parentGroup key n,
    no_nested_group schema →
    build_entry segmentMatcher parent parentGroup key schema = Ok n →
    inherits_group n ∧
    Node.group n = match schema with
                   | SchemaBool _ => parentGroup
                   | SchemaObject _ _ _ g _ => default parentGroup g
                   end.
Proof.
  induction schema as [b | m q e g | m q e g dict IH] using RouteSchema_tree_ind;
    intros parent parentGroup key n Hno.
  - simpl. intros (Hg & Hc & _)%new_RouteMatch_inv. split; [|done].
    apply inherits_group_children. rewrite Hc. constructor.
  - rewrite build_entry_eq. cbv zeta.
    destruct (Match.compile _); simpl; [|done].
    intros (Hg & Hc & _)%new_RouteMatch_inv. split; [|done].
    apply inherits_group_children. rewrite Hc. constructor.
  - rewrite build_entry_eq. cbv zeta.
    destruct (Match.compile _); simpl; [|done].
    destruct (_build segmentMatcher dict (key :: parent) (default parentGroup g))
      as [routeMatches|] eqn:B; simpl; [|done].
    intros (Hg & Hc & _)%new_RouteMatch_inv. split; [|done].
    apply inherits_group_children. rewrite Hc, Hg.
    apply no_nested_group_children in Hno.
    clear Hc Hg. revert routeMatches B.
    generalize (default parentGroup g) as group. intros group.
    induction dict as [|[k s] dict IHd]; intros routeMatches; simpl.
    + intros [= <-]. constructor.
    + apply Forall_cons in IH as [IHs IH]. apply Forall_cons in Hno as [[Hg Hs] Hno].
      destruct (build_entry _ _ _ k s) as [c|] eqn:Bc; simpl; [|done].
      destruct (_build _ dict _ _) as [cs|] eqn:Bcs; simpl; [|done].
      intros [= <-]. constructor; [|by apply IHd].
      destruct (IHs _ _ _ _ Hs Bc) as [Hi Hgc]. split; [|done].
      rewrite Hgc. simpl in Hg. destruct s; [done | by rewrite Hg].
Qed.

Lemma _build_inherits segmentMatcher schemaDict parent parentGroup routeMatches :
  Forall (fun ks => no_nested_group ks.2) schemaDict →
  _build segmentMatcher schemaDict parent parentGroup = Ok routeMatches →
  Forall inherits_group routeMatches.
Proof.
  intros Hno. revert routeMatches.
  induction Hno as [|[k s] dict Hs _ IH]; intros routeMatches; simpl.
  - intros [= <-]. constructor.
  - destruct (build_entry _ _ _ k s) as [c|] eqn:Bc; simpl; [|done].
    destruct (_build _ dict _ _) as [cs|] eqn:Bcs; simpl; [|done].
    intros [= <-]. constructor; [|by apply IH].
    by eapply build_entry_inherits.
Qed.

(** A router created from a schema whose nested entries declare no group
    has a tree that inherits its groups. *)
Lemma create_inherits schema o self :
  Forall (fun ks => no_nested_group ks.2) schema →
  create schema o = Ok self →
  Forall inherits_group (_children self).
Proof.
  intros Hno. unfold create.
  destruct (_build _ schema [] None) as [children|] eqn:B; simpl; [|done].
  intros [= <-]. simpl. by eapply _build_inherits.
Qed.

(** C6, as the claim states it, fails: [api], nested under [docs], declares
    the group "sidebar".  The only slot for "/docs/api" is the primary one,
    whose group is [undefined]; the chain [docs], [api] is accepted into the
    merged map although the group of its leaf is "sidebar". *)
Lemma leaf_group_differs_from_slot :
  let self := Examples.router_of Examples.nested_group_schema in
  let nextLocation := Examples.at_ 1 "/docs/api" "" in
  (fun info => (path info, pi_group info)) <$>
    (route_paths simple_URLSearchParams self nextLocation).1.1
  = [ ("/docs/api", None) ] ∧
  (fun ne => (ne.1, Node.group (match_ ne.2))) <$>
    matchToMatchEntryMap
      (next_source spec_node_match simple_URLSearchParams self nextLocation)
  = [ (["docs"], None); (["api"; "docs"], Some "sidebar") ].
Proof. split; reflexivity. Qed.

(** C6 (amended): for every group slot, the primary one included, a chain
    produced by matching the slot's path against the root tree is accepted
    into the merged next matched-entry map only if the group of the first,
    top-level node of the chain equals the slot's group.  In a tree in which
    no node below the top level declares a group of its own, that is the
    group of every node of the chain, the leaf included. *)
Theorem accepted_chain_has_slot_group node_match URLSearchParams self
    nextLocation n e :
  (n, e) ∈ matchToMatchEntryMap
             (next_source node_match URLSearchParams self nextLocation) →
  ∃ info first rest,
    info ∈ (route_paths URLSearchParams self nextLocation).1.1 ∧
    Router._match node_match (_children self) (path info) = Some (first :: rest) ∧
    Node.group (match_ first) = pi_group info ∧
    e ∈ first :: rest ∧
    n = ref (match_ e) ∧
    (Forall inherits_group (_children self) →
     Node.group (match_ e) = pi_group info).
Proof.
  unfold next_source.
  destruct (route_paths URLSearchParams self nextLocation)
    as [[pathInfos pathDict] queryDict]. simpl.
  intros (-> & g & entries & Hge & He)%merge_entries_elem.
  apply match_parallel_elem in Hge as (info & first & rest & Hi & <- & Hm & -> & Hg).
  exists info, first, rest. repeat (split; [done|]).
  intros Hinh.
  destruct (_match_Some_child _ _ _ _ Hm) as (c & Hc & Hchain).
  destruct (_match_child_entries _ _ _ _ Hchain) as (tail & [= -> <-]).
  rewrite Forall_forall in Hinh.
  pose proof (chain_inherits_group _ _ _ _ (Hinh c Hc) Hchain) as Hall.
  rewrite Forall_forall in Hall. rewrite (Hall e He). exact Hg.
Qed.

Lemma accepted_chain_has_slot_group_witness :
  let self := Examples.router_of Examples.group_schema in
  let nextLocation := Examples.at_ 1 "/about" "?_sidebar=/chat" in
  ∃ e info first rest,
    (["chat"], e) ∈ matchToMatchEntryMap
      (next_source spec_node_match simple_URLSearchParams self nextLocation) ∧
    info ∈ (route_paths simple_URLSearchParams self nextLocation).1.1 ∧
    Node.group (match_ first) = pi_group info ∧
    e ∈ first :: rest.
Proof.
  intros self nextLocation.
  assert (Hin : ∃ e, (["chat"], e) ∈ matchToMatchEntryMap
            (next_source spec_node_match simple_URLSearchParams self nextLocation)).
  { eexists. apply list_elem_of_further, list_elem_of_here. }
  destruct Hin as [e Hin].
  destruct (accepted_chain_has_slot_group _ _ _ _ _ _ Hin)
    as (info & first & rest & Hi & _ & Hg & He & _ & _).
  by exists e, info, first, rest.
Defined.

Section PrimaryFacts.

Variable node_match : RouteMatch -> string -> RouteMatchInternalResult.
Variable URLSearchParams : string -> list (string * string).

Local Abbreviation _match := (Router._match node_match).
Local Abbreviation match_parallel := (Router.match_parallel node_match).
Local Abbreviation next_source := (Router.next_source node_match URLSearchParams).
Local Abbreviation route_paths := (Router.route_paths URLSearchParams).
Local Abbreviation pathWithoutPrefix := Router.pathWithoutPrefix.

(** The loop over the groups appends paths that carry a group. *)
Lemma extract_group_paths_infos groups acc :
  ∃ extra,
    (extract_group_paths groups acc).1.1 = acc.1.1 ++ extra ∧
    Forall (fun info => pi_group info ≠ None) extra.
Proof.
  revert acc. induction groups as [|g groups IH]; intros acc.
  { exists []. by rewrite (right_id_L [] (++)). }
  change (extract_group_paths (g :: groups) acc)
    with (extract_group_paths groups (extract_group_path acc g)).
  destruct (IH (extract_group_path acc g)) as (extra & -> & Hextra).
  destruct acc as [[pathInfos pathDict] queryDict]. simpl.
  destruct (queryDict !! _) as [[p|]|]; simpl; eauto.
  destruct (Str.falsy p); simpl; eauto.
  eexists (_ :: extra). split; [by rewrite <- app_assoc|]. by constructor.
Qed.

(** The primary slot is the first path; every other path carries a group. *)
Lemma route_paths_primary self nextLocation :
  ∃ extra,
    (route_paths self nextLocation).1.1
    = {| path := pathWithoutPrefix self nextLocation; pi_group := None |} :: extra ∧
    Forall (fun info => pi_group info ≠ None) extra.
Proof.
  unfold Router.route_paths.
  destruct (extract_group_paths_infos (_groups self)
              ([ {| path := pathWithoutPrefix self nextLocation; pi_group := None |} ],
               {[ "_" := pathWithoutPrefix self nextLocation ]},
               parse_query (URLSearchParams (search nextLocation))))
    as (extra & -> & Hextra).
  by exists extra.
Qed.

(** No chain for the primary path: no slot for the group [undefined]. *)
Lemma match_parallel_no_primary children pathInfos :
  Forall (fun info => pi_group info = None → _match children (path info) = None)
         pathInfos →
  map_get None (match_parallel children pathInfos) = None.
Proof.
  unfold Router.match_parallel.
  generalize (@nil (JsString * list RouteMatchEntry)) (eq_refl : map_get None
    (@nil (JsString * list RouteMatchEntry)) = None).
  intros acc Hacc Hall. revert acc Hacc.
  induction Hall as [|info pathInfos Hinfo _ IH]; intros acc Hacc; simpl; [done|].
  apply IH.
  destruct (_match children (path info)) as [[|first rest]|] eqn:E; simpl; try done.
  case_bool_decide; [done|].
  rewrite map_get_map_set_ne; [done|].
  intros Hg. specialize (Hinfo Hg). congruence.
Qed.

Lemma leaving_nil previousMatchSet : leaving previousMatchSet [] = previousMatchSet.
Proof. reflexivity. Qed.

Lemma enteringAndUpdating_nil self previousMatchSet :
  enteringAndUpdating self previousMatchSet [] = [].
Proof.
  unfold enteringAndUpdating.
  induction previousMatchSet as [|m ms IH]; simpl; [done|]. exact IH.
Qed.

(** Hooks that resolve to a truthy value and request nothing let a
    before-phase fall through, and leave the router as it is. *)
Lemma before_hooks_allow hooks kind nextLocation ms self :
  Forall (fun m => hooks (kind m) m = {| resolved := Some true; requested := None |}) ms →
  _isNextLocationOutDated self nextLocation = false →
  before_hooks hooks kind nextLocation ms self = (allowed kind ms, self, None).
Proof.
  intros Hall Hout. induction Hall as [|m ms Hm _ IH]; simpl; [done|].
  unfold await. rewrite Hm. simpl. by rewrite Hout, IH.
Qed.

End PrimaryFacts.

(** C10: when the primary path, the pathname without the prefix, matches no
    chain in the route tree, the next matched-entry map is empty, whatever
    the group paths of the query match.  Every previously matched node is
    then leaving and no node is entering or updating; a run that reaches its
    end has committed the empty map and has deactivated every previously
    matched node; and the run does get to the commit when the location is
    the latest requested one, differs from the committed one, lies under the
    prefix, and the [beforeLeave] hooks of the previously matched nodes
    allow the transition. *)
Theorem no_primary_match_empties_next node_match URLSearchParams hooks self
    nextLocation :
  Router._match node_match (_children self)
    (pathWithoutPrefix self nextLocation) = None →
  matchToMatchEntryMap (next_source node_match URLSearchParams self nextLocation) = [] ∧
  reversedLeavingMatches node_match URLSearchParams self nextLocation
    = reverse (previousMatchSet self) ∧
  enteringAndUpdatingMatchSet node_match URLSearchParams self nextLocation = [] ∧
  (∀ evs self',
     _asyncOnLocationChange node_match URLSearchParams hooks self nextLocation
       = (evs, self', Finished) →
     matchToMatchEntryMap (_source self') = [] ∧
     _location self' = Some nextLocation ∧
     ∀ m, m ∈ previousMatchSet self →
          Hook BeforeLeave m (Some true) ∈ evs ∧ Update m false false ∈ evs) ∧
  (_isNextLocationOutDated self nextLocation = false →
   (∀ l, _location self = Some l → isLocationEqual l nextLocation = false) →
   testPathPrefix (pathname nextLocation) (_prefix self) = true →
   (∀ m, m ∈ previousMatchSet self →
         hooks BeforeLeave m = {| resolved := Some true; requested := None |}) →
   ∃ evs self' ex,
     _asyncOnLocationChange node_match URLSearchParams hooks self nextLocation
       = (evs, self', ex) ∧
     (ex = Finished ∨ ex = Rejected) ∧
     matchToMatchEntryMap (_source self') = [] ∧
     _location self' = Some nextLocation).
Proof.
  intros Hprimary.
  assert (Hnext : matchToMatchEntryMap
            (next_source node_match URLSearchParams self nextLocation) = []).
  { unfold next_source.
    destruct (route_paths_primary URLSearchParams self nextLocation)
      as (extra & Hpaths & Hextra).
    destruct (route_paths URLSearchParams self nextLocation)
      as [[pathInfos pathDict] queryDict]. simpl in *. subst pathInfos.
    unfold merge_entries. rewrite match_parallel_no_primary; [done|].
    constructor; [done|].
    eapply Forall_impl; [exact Hextra|]. by intros info Hg. }
  assert (Hlv : reversedLeavingMatches node_match URLSearchParams self nextLocation
                = reverse (previousMatchSet self)).
  { unfold reversedLeavingMatches, nextMatchSet. by rewrite Hnext. }
  assert (Heu : enteringAndUpdatingMatchSet node_match URLSearchParams self nextLocation
                = []).
  { unfold enteringAndUpdatingMatchSet, nextMatchSet. rewrite Hnext.
    apply enteringAndUpdating_nil. }
  repeat (split; [done|]). split.
  - intros evs self' (Hl & Hs & _ & evsA & -> & _)%run_spec.
    rewrite Hs, Hnext. repeat (split; [done|]).
    intros m Hm. rewrite Hlv. split.
    + apply elem_of_app. left. unfold allowed.
      apply (list_elem_of_fmap_2 (fun m => Hook BeforeLeave m (Some true))).
      by apply elem_of_reverse.
    + apply elem_of_app. right. apply elem_of_app. right.
      apply elem_of_app. left. unfold update_events.
      apply elem_of_app. left.
      apply (list_elem_of_fmap_2 (fun m => Update m false false)).
      by apply elem_of_reverse.
  - intros Hout Hsame Hprefix Hallow.
    unfold _asyncOnLocationChange. rewrite Hout.
    replace (match _location self with
             | Some l => isLocationEqual l nextLocation
             | None => false
             end) with false
      by (destruct (_location self) as [l|]; [by rewrite Hsame | done]).
    rewrite Hprefix. cbv zeta. simpl negb. cbv iota.
    rewrite Hlv, Heu, before_hooks_allow; cycle 1.
    { rewrite Forall_forall. intros m Hm. apply Hallow. by apply elem_of_reverse. }
    { by destruct self. }
    cbn [before_hooks].
    destruct (commit_and_notify node_match URLSearchParams hooks self nextLocation _)
      as [[evs s'] e] eqn:T.
    apply commit_and_notify_spec in T as (He & Hl & Hs & _);
      [|apply awaited_from_refl].
    eexists _, _, _. split; [done|]. split; [done|]. by rewrite Hs, Hnext.
Qed.

Lemma no_primary_match_empties_next_witness :
  let start :=
    (Examples.navigate Examples.allow_all
       (Examples.router_of Examples.group_schema)
       (Examples.at_ 1 "/about" "?_sidebar=/chat")).1.2 in
  let nextLocation := Examples.at_ 2 "/nowhere" "?_sidebar=/chat" in
  let run := Examples.navigate Examples.allow_all start nextLocation in
  previousMatchSet start = [ ["about"]; ["chat"] ] ∧
  Router._match spec_node_match (_children start) "/chat" ≠ None ∧
  run.2 = Finished ∧
  matchToMatchEntryMap (_source run.1.2) = [] ∧
  Update ["chat"] false false ∈ run.1.1.
Proof.
  intros start nextLocation run.
  destruct (no_primary_match_empties_next
              spec_node_match simple_URLSearchParams Examples.allow_all
              (_onLocationChange start nextLocation) nextLocation eq_refl)
    as (_ & _ & _ & Hfin & _).
  destruct (Hfin run.1.1 run.1.2 eq_refl) as (Hs & _ & Hall).
  split; [reflexivity|]. split; [discriminate|]. split; [reflexivity|].
  split; [exact Hs|].
  apply (Hall ["chat"]). apply list_elem_of_further, list_elem_of_here.
Defined.

(** ** [router.ts]: entering, leaving and updating *)

Lemma elem_of_set_delete (k m : NodeRef) (s : list NodeRef) :
  m ∈ set_delete k s ↔ m ≠ k ∧ m ∈ s.
Proof. unfold set_delete. by rewrite list_elem_of_filter. Qed.

(** A match is leaving when it is in the previous set and not in the next. *)
Lemma elem_of_leaving previousMatchSet nextMatchSet (m : NodeRef) :
  m ∈ leaving previousMatchSet nextMatchSet ↔
  m ∈ previousMatchSet ∧ m ∉ nextMatchSet.
Proof.
  unfold leaving. revert previousMatchSet.
  induction nextMatchSet as [|k next IH]; intros previous; simpl.
  - split; [intros ?; split; [done | apply not_elem_of_nil] | by intros []].
  - rewrite IH, elem_of_set_delete, not_elem_of_cons. tauto.
Qed.

(** A match that is entering or updating is in the next set, and is not a
    previous match that is unchanged. *)
Lemma elem_of_enteringAndUpdating self previousMatchSet nextMatchSet (m : NodeRef) :
  m ∈ enteringAndUpdating self previousMatchSet nextMatchSet →
  m ∈ nextMatchSet ∧ ¬ (m ∈ previousMatchSet ∧ unchanged self m = true).
Proof.
  unfold enteringAndUpdating.
  revert nextMatchSet.
  induction previousMatchSet as [|k previous IH]; intros next; simpl.
  - intros Hm. split; [done|]. by intros [?%elem_of_nil _].
  - intros Hm. apply IH in Hm as [Hm Hprev].
    assert (Hnext : m ∈ next).
    { destruct (negb (set_has k next)); [done|].
      destruct (unchanged self k); [|done].
      by apply elem_of_set_delete in Hm as [_ ?]. }
    split; [done|]. intros [[->|Hin]%elem_of_cons Hu]; [|by apply Hprev].
    unfold set_has in Hm. rewrite Hu in Hm. case_bool_decide as Hk; simpl in Hm.
    + by apply elem_of_set_delete in Hm as [? _].
    + done.
Qed.

(** The hooks awaited by a run belong to leaving, entering or updating
    matches. *)
Lemma run_hook_nodes node_match URLSearchParams hooks self nextLocation evs self' ex :
  _asyncOnLocationChange node_match URLSearchParams hooks self nextLocation
    = (evs, self', ex) →
  Forall (fun ev =>
            ∀ m, hook_node ev = Some m →
                 m ∈ reversedLeavingMatches node_match URLSearchParams self nextLocation ∨
                 m ∈ enteringAndUpdatingMatchSet node_match URLSearchParams self
                       nextLocation) evs.
Proof.
  intros Hrun%run_spec.
  set (lv := reversedLeavingMatches _ _ _ _) in *.
  set (eu := enteringAndUpdatingMatchSet _ _ _ _) in *.
  assert (Hallowed : ∀ kind ms, (∀ m, m ∈ ms → m ∈ lv ∨ m ∈ eu) →
            Forall (fun ev => ∀ m, hook_node ev = Some m → m ∈ lv ∨ m ∈ eu)
                   (allowed kind ms)).
  { intros kind ms Hms. apply Forall_fmap, Forall_forall.
    intros m Hm m' [= <-]. by apply Hms. }
  assert (Hstop : ∀ last,
            (∀ k m, Forall (fun ev => ∀ m', hook_node ev = Some m' → m' = m) (last k m)) →
            stopped_at node_match URLSearchParams self nextLocation last evs →
            Forall (fun ev => ∀ m, hook_node ev = Some m → m ∈ lv ∨ m ∈ eu) evs).
  { intros last Hlast [(pre & m & post & Hl & ->) | (pre & m & post & Hl & ->)];
      fold lv eu in Hl |- *.
    - apply Forall_app. split.
      + apply Hallowed. intros m' Hm'. left. rewrite Hl. apply elem_of_app. by left.
      + eapply Forall_impl; [apply Hlast|]. intros ev Hev m' ->%Hev.
        left. rewrite Hl. apply elem_of_app. right. apply list_elem_of_here.
    - apply Forall_app. split; [apply Hallowed; auto|].
      apply Forall_app. split.
      + apply Hallowed. intros m' Hm'. right. rewrite Hl. apply elem_of_app. by left.
      + eapply Forall_impl; [apply Hlast|]. intros ev Hev m' ->%Hev.
        right. rewrite Hl. apply elem_of_app. right. apply list_elem_of_here. }
  assert (Hcommitted : committed node_match URLSearchParams self nextLocation evs self' →
            Forall (fun ev => ∀ m, hook_node ev = Some m → m ∈ lv ∨ m ∈ eu) evs).
  { intros (_ & _ & _ & evsA & -> & HA). fold lv eu in HA |- *.
    apply Forall_app. split; [apply Hallowed; auto|].
    apply Forall_app. split; [apply Hallowed; auto|].
    apply Forall_app. split.
    - eapply Forall_impl; [apply update_events_are_updates|]. by intros [].
    - eapply Forall_impl; [exact HA|].
      intros ev [Hc | (_ & m & Hm & Hin)] m' Hm'; [by destruct ev | congruence]. }
  destruct ex.
  - destruct Hrun as (-> & _). constructor.
  - destruct Hrun as (-> & _). constructor.
  - destruct Hrun as (_ & ->). destruct (_onLeave self); by repeat constructor.
  - destruct Hrun as (_ & _ & result & Hs). eapply Hstop; [|exact Hs].
    intros k m. repeat constructor. by intros m' [= <-].
  - destruct Hrun as (_ & _ & Hs). eapply Hstop; [|exact Hs].
    intros k m. repeat constructor; [by intros m' [= <-] | done].
  - destruct Hrun as [(_ & Hs) | Hc]; [|by apply Hcommitted].
    eapply Hstop; [|exact Hs].
    intros k m. repeat constructor. by intros m' [= <-].
  - by apply Hcommitted.
Qed.

(** C9: with the schema [{parent: {$exact: true, $children: {nested:
    true}}}] and hooks that allow, navigating to "/parent/nested" awaits
    [beforeEnter] of [parent] and not its [beforeUpdate], and navigating to
    "/parent" afterwards awaits [beforeUpdate] of [parent] exactly once and
    not its [beforeEnter].  In every transition, a node that is in the
    committed and in the next set, with the same path segments and the same
    exactness in both, has none of its hooks awaited. *)
Theorem update_hook_on_exactness_change :
  (let start := Examples.router_of Examples.parent_schema in
   let first := Examples.navigate Examples.allow_all start
                  (Examples.at_ 1 "/parent/nested" "") in
   let second := Examples.navigate Examples.allow_all first.1.2
                   (Examples.at_ 2 "/parent" "") in
   first.2 = Finished ∧
   Examples.hook_count BeforeEnter ["parent"] first.1.1 = 1 ∧
   Examples.hook_count BeforeUpdate ["parent"] first.1.1 = 0 ∧
   second.2 = Finished ∧
   Examples.hook_count BeforeUpdate ["parent"] second.1.1 = 1 ∧
   Examples.hook_count BeforeEnter ["parent"] second.1.1 = 0 ∧
   get_exact (_source first.1.2) ["parent"] = false ∧
   get_exact (_source second.1.2) ["parent"] = true) ∧
  (∀ node_match URLSearchParams hooks self nextLocation evs self' ex n,
     _asyncOnLocationChange node_match URLSearchParams hooks self nextLocation
       = (evs, self', ex) →
     n ∈ previousMatchSet self →
     n ∈ nextMatchSet node_match URLSearchParams self nextLocation →
     _pathSegments (_source self) n
       = _pathSegments (next_source node_match URLSearchParams self nextLocation) n →
     get_exact (_source self) n
       = get_exact (next_source node_match URLSearchParams self nextLocation) n →
     Forall (fun ev => hook_node ev ≠ Some n) evs).
Proof.
  split; [repeat split|].
  intros node_match URLSearchParams hooks self nextLocation evs self' ex n
         Hrun Hprev Hnext Hseg Hexact.
  apply run_hook_nodes in Hrun.
  eapply Forall_impl; [exact Hrun|].
  intros ev Hev Hn. destruct (Hev n Hn) as [Hlv | Heu].
  - unfold reversedLeavingMatches in Hlv.
    apply elem_of_reverse, elem_of_leaving in Hlv as [_ Hnot]. done.
  - unfold enteringAndUpdatingMatchSet in Heu.
    apply elem_of_enteringAndUpdating in Heu as [_ Hnot]. apply Hnot.
    split; [done|]. unfold unchanged, isShallowlyEqual.
    replace (_source (set_matchingSource _ self)) with (_source self)
      by (by destruct self).
    replace (_matchingSource (set_matchingSource _ self))
      with (next_source node_match URLSearchParams self nextLocation)
      by (by destruct self).
    rewrite <- Hseg, <- Hexact, bool_decide_eq_true_2 by done.
    by destruct (get_exact _ _).
Qed.

Lemma update_hook_on_exactness_change_witness :
  let start :=
    (Examples.navigate Examples.allow_all
       (Examples.router_of Examples.parent_schema)
       (Examples.at_ 1 "/parent/nested" "")).1.2 in
  let run := Examples.navigate Examples.allow_all start
               (Examples.at_ 2 "/parent/nested" "?tab=1") in
  run.2 = Finished ∧
  Forall (fun ev => hook_node ev ≠ Some ["parent"]) run.1.1.
Proof.
  intros start run. split; [reflexivity|].
  refine (proj2 update_hook_on_exactness_change
            spec_node_match simple_URLSearchParams Examples.allow_all
            (_onLocationChange start (Examples.at_ 2 "/parent/nested" "?tab=1"))
            (Examples.at_ 2 "/parent/nested" "?tab=1")
            run.1.1 run.1.2 run.2 ["parent"] eq_refl _ _ eq_refl eq_refl).
  - apply list_elem_of_here.
  - apply list_elem_of_here.
Defined.

(** ** The scenarios of [hooks.test.ts] *)

(** With [{default: {$match: ''}, about: true}], navigating to "/about"
    commits the set [{about}]. *)
Example navigate_to_about :
  let run := Examples.navigate Examples.allow_all
               (Examples.router_of Examples.hooks_schema)
               (Examples.at_ 1 "/about" "") in
  previousMatchSet run.1.2 = [ ["about"] ] ∧
  Examples.matched_view run.1.2 ["about"] = true ∧
  Examples.matched_view run.1.2 ["default"] = false.
Proof. repeat split. Qed.

(** "should revert navigation from `about` to `revert` by
    `revert.$beforeEnter`" *)
Example revert_by_beforeEnter :
  let start :=
    (Examples.navigate Examples.allow_all
       (Examples.router_of Examples.hooks_schema)
       (Examples.at_ 1 "/about" "")).1.2 in
  let run := Examples.navigate Examples.veto_revert start
               (Examples.at_ 2 "/revert" "") in
  run.1.1 = [ Hook BeforeLeave ["about"] (Some true);
              Hook BeforeEnter ["revert"] (Some false);
              HistoryReplace (Examples.at_ 1 "/about" "") ] ∧
  run.2 = Reverted ∧
  Examples.matched_view run.1.2 ["about"] = true ∧
  Examples.matched_view run.1.2 ["revert"] = false.
Proof. repeat split. Qed.

(** "should revert navigation from `persist` to `about` by
    `persist.$beforeLeave`" *)
Example revert_by_beforeLeave :
  let start :=
    (Examples.navigate Examples.veto_persist
       (Examples.router_of Examples.hooks_schema)
       (Examples.at_ 1 "/persist" "")).1.2 in
  let run := Examples.navigate Examples.veto_persist start
               (Examples.at_ 2 "/about" "") in
  run.1.1 = [ Hook BeforeLeave ["persist"] (Some false);
              HistoryReplace (Examples.at_ 1 "/persist" "") ] ∧
  run.2 = Reverted ∧
  Examples.matched_view run.1.2 ["persist"] = true ∧
  Examples.matched_view run.1.2 ["about"] = false.
Proof. repeat split. Qed.

(** * Further properties of the code *)

(** ** [route-match.ts]: [_match] and [_push] *)

Lemma startsWith_split s p :
  startsWith s p = true → s = p +:+ Str.slice (String.length p) s.
Proof.
  unfold startsWith. revert s. induction p as [|a p IH]; intros s; [done|].
  destruct s as [|c s]; [done|].
  change (String.prefix (String a p) (String c s))
    with (if ascii_dec a c then String.prefix p s else false).
  destruct (ascii_dec a c) as [->|]; [|done].
  intros H. rewrite append_cons. simpl. f_equal. by apply IH.
Qed.

Lemma length_append_string p r :
  String.length (p +:+ r) = String.length p + String.length r.
Proof.
  induction p as [|a p IH]; [done|]. rewrite append_cons. simpl. by rewrite IH.
Qed.

(** What [isPathPrefix] accepts: the prefix, followed by the end of the path
    or by a "/". *)
Lemma isPathPrefix_split s p :
  isPathPrefix s p = true →
  s = p +:+ Str.slice (String.length p) s ∧
  (Str.slice (String.length p) s = "" ∨
   ∃ u, Str.slice (String.length p) s = "/" +:+ u).
Proof.
  unfold isPathPrefix. intros [Hs Hn]%andb_true_iff.
  apply startsWith_split in Hs. split; [done|].
  set (r := Str.slice (String.length p) s) in *. clearbody r. subst s.
  rewrite get_length_app in Hn.
  destruct r as [|c u]; [by left|]. right. exists u.
  apply orb_true_iff in Hn as [Hn | Hn].
  - apply Nat.eqb_eq in Hn. rewrite length_append_string in Hn. simpl in Hn. lia.
  - simpl in Hn. unfold Str.is_slash in Hn. by apply Ascii.eqb_eq in Hn as ->.
Qed.

(** Whatever the pattern, a match of [_match] takes the leading "/" and a
    prefix of the path off it: the path is "/", the captured text and the
    rest, and the rest is empty or starts with "/". *)
Theorem match_splits_path (n : Match.RouteMatch) skipped path r seg :
  Match._match n skipped path = Ok r →
  Match.current r = Some seg →
  path = "/" +:+ seg +:+ Match.rest r ∧
  (Match.rest r = "" ∨ ∃ u, Match.rest r = "/" +:+ u).
Proof.
  unfold Match._match. intros Hm Hs.
  destruct (skipped || Str.falsy path) eqn:Hsk.
  { injection Hm as <-. discriminate. }
  apply orb_false_iff in Hsk as [_ Hf].
  destruct path as [|c t]; [done|].
  destruct (Str.startsWith (String c t) "/") eqn:Hc; simpl in Hm; [|done].
  apply startsWith_slash_inv in Hc as ->.
  change (Str.slice 1 (String "/" t)) with t in Hm.
  change ("/" +:+ ?x) with (String "/" x).
  destruct (Match._matchPattern n) as [p | re].
  - destruct (isPathPrefix t p) eqn:Hp.
    + injection Hm as <-. simpl in *. injection Hs as <-.
      apply isPathPrefix_split in Hp as [Ht Hr]. split; [by f_equal | done].
    + injection Hm as <-. discriminate.
  - destruct (exec re t) as [m|]; [|injection Hm as <-; discriminate].
    destruct (isPathPrefix t m) eqn:Hp; simpl in Hm; [|done].
    injection Hm as <-. simpl in *. injection Hs as <-.
    apply isPathPrefix_split in Hp as [Ht Hr]. split; [by f_equal | done].
Qed.

Lemma match_splits_path_witness :
  ∃ n r,
    Match.new "users" {| Match.match_ := PString "users"; Match.query := None |} = Ok n ∧
    Match._match n false "/users/42" = Ok r ∧
    "/users/42" = "/" +:+ "users" +:+ Match.rest r.
Proof.
  eexists _, _. split; [reflexivity|]. split; [reflexivity|].
  refine (proj1 (match_splits_path
                   {| Match._name := "users"; Match._matchPattern := PString "users";
                      Match._queryKeys := None; Match._matched := false;
                      Match._fragments := None; Match._query := None |}
                   false "/users/42" _ "users" eq_refl eq_refl)).
Defined.

Lemma isPathPrefix_first_segment t p :
  Str.forallb Str.not_slash p = true →
  isPathPrefix t p = String.eqb (Str.takeWhile Str.not_slash t) p.
Proof.
  revert t. induction p as [|a p IH]; intros t Hp.
  - destruct t as [|c u]; [done|].
    unfold isPathPrefix, Str.startsWith. simpl.
    unfold Str.not_slash. by destruct (Str.is_slash c).
  - simpl in Hp. apply andb_true_iff in Hp as [Ha Hp].
    destruct t as [|c u]; [done|].
    assert (E : isPathPrefix (String c u) (String a p)
                = (if ascii_dec a c then isPathPrefix u p else false)).
    { unfold isPathPrefix, Str.startsWith.
      change (String.prefix (String a p) (String c u))
        with (if ascii_dec a c then String.prefix p u else false).
      by destruct (ascii_dec a c). }
    rewrite E. simpl.
    destruct (ascii_dec a c) as [<-|Hne].
    + rewrite Ha. simpl. rewrite Ascii.eqb_refl. by apply IH.
    + destruct (Str.not_slash c); simpl; [|done].
      destruct (Ascii.eqb_spec c a); [congruence | done].
Qed.

(** A literal pattern without "/" matches when the next segment of the path
    is the pattern, and only then: a segment that merely begins with the
    pattern is not matched. *)
Theorem literal_matches_equal_segment (n : Match.RouteMatch) p t :
  Match._matchPattern n = PString p →
  Str.forallb Str.not_slash p = true →
  Match._match n false ("/" +:+ t) =
  if String.eqb (Str.takeWhile Str.not_slash t) p
  then Ok {| Match.current := Some p;
             Match.rest := Str.slice (String.length p) t |}
  else Ok {| Match.current := None; Match.rest := "" |}.
Proof.
  intros Hn Hp. change ("/" +:+ t) with (String "/" t).
  unfold Match._match. cbn -[isPathPrefix Str.takeWhile String.length String.eqb].
  rewrite Hn, (isPathPrefix_first_segment t p Hp).
  by destruct t.
Qed.

Lemma literal_matches_equal_segment_witness :
  ∃ n,
    Match.new "user" {| Match.match_ := PString "user"; Match.query := None |} = Ok n ∧
    Match._match n false "/users/42" =
      Ok {| Match.current := None; Match.rest := "" |}.
Proof.
  eexists. split; [reflexivity|].
  exact (literal_matches_equal_segment
           {| Match._name := "user"; Match._matchPattern := PString "user";
              Match._queryKeys := None; Match._matched := false;
              Match._fragments := None; Match._query := None |}
           "user" "users/42" eq_refl eq_refl).
Defined.







(** ** [router.ts]: [_match] and [_build] *)

Section ChainFacts.

Variable node_match : RouteMatch -> string -> RouteMatchInternalResult.

Lemma _match_child_is_chain c :
  ∀ upperRest entries,
    Router._match_child node_match c upperRest = Some entries →
    ∃ e es,
      entries = e :: es ∧ match_ e = c ∧
      match es with
      | [] => exact e = true
      | _ :: _ => exact e = false ∧ is_chain (Node._children c) es
      end.
Proof.
  induction c as [c IH] using RouteMatch_tree_ind. intros upperRest entries.
  rewrite _match_child_eq. cbv zeta.
  destruct (matched _); simpl; [|done].
  destruct (exactlyMatched _); simpl; [intros [= <-]; by eexists _, _|].
  destruct (Router._match node_match (Node._children c) _) as [result|] eqn:E; [|done].
  intros [= <-]. eexists _, result. split; [done|]. split; [done|].
  apply _match_Some_child in E as (c' & Hin & Hc').
  rewrite Forall_forall in IH.
  destruct (IH c' Hin _ _ Hc') as (e & es & -> & <- & Htail).
  split; [done|]. simpl. split; [done | exact Htail].
Qed.

End ChainFacts.

(** What [_match] returns is a chain of the tree: it starts at a child of
    the target, every further node is a child of the node before it, and the
    last entry, and no other, is exact.  It is never an empty array. *)
Theorem match_returns_a_chain node_match children upperRest entries :
  Router._match node_match children upperRest = Some entries →
  is_chain children entries.
Proof.
  intros Hm. apply _match_Some_child in Hm as (c & Hin & Hc).
  apply _match_child_is_chain in Hc as (e & es & -> & <- & Htail).
  simpl. split; [done | exact Htail].
Qed.

Lemma match_returns_a_chain_witness :
  ∃ entries,
    Router._match spec_node_match
      (_children (Examples.router_of Examples.shadow_schema)) "/about/team"
      = Some entries ∧
    is_chain (_children (Examples.router_of Examples.shadow_schema)) entries.
Proof.
  eexists. split; [reflexivity|].
  exact (match_returns_a_chain spec_node_match
           (_children (Examples.router_of Examples.shadow_schema))
           "/about/team" _ eq_refl).
Defined.







Lemma build_groups_fold routeMatches (acc : list string) :
  NoDup acc →
  NoDup (foldl (fun groupSet routeMatch =>
                  match group routeMatch with
                  | Some g =>
                      if Str.falsy g || set_has g groupSet then groupSet
                      else groupSet ++ [g]
                  | None => groupSet
                  end) acc routeMatches) ∧
  ∀ g, g ∈ foldl (fun groupSet routeMatch =>
                    match group routeMatch with
                    | Some g =>
                        if Str.falsy g || set_has g groupSet then groupSet
                        else groupSet ++ [g]
                    | None => groupSet
                    end) acc routeMatches ↔
       g ∈ acc ∨ (g ≠ "" ∧ ∃ n, n ∈ routeMatches ∧ group n = Some g).
Proof.
  revert acc. induction routeMatches as [|n ns IH]; intros acc Hnd; simpl.
  { split; [done|]. intros g. split; [by left|].
    intros [?|(_ & n & Hn%elem_of_nil & _)]; done. }
  set (acc' := match group n with Some g => _ | None => acc end).
  assert (Hacc' : NoDup acc' ∧
            ∀ g, g ∈ acc' ↔ g ∈ acc ∨ (g ≠ "" ∧ group n = Some g)).
  { unfold acc'. destruct (group n) as [g0|].
    2:{ split; [done|]. intros g. split; [by left | by intros [?|[_ ?]]]. }
    destruct g0 as [|c g0]; simpl.
    { split; [done|]. intros g. split; [by left | by intros [?|[? [= <-]]]]. }
    unfold set_has. case_bool_decide as Hin.
    { split; [done|]. intros g. split; [by left | by intros [?|[? [= <-]]]]. }
    split.
    - apply NoDup_app. split; [done|]. split; [|apply NoDup_singleton].
      intros x Hx ->%list_elem_of_singleton. done.
    - intros g. rewrite elem_of_app, list_elem_of_singleton. split.
      + intros [?| ->]; [by left | by right].
      + intros [?|[_ [= <-]]]; [by left | by right]. }
  destruct Hacc' as [Hnd' Hmem']. destruct (IH acc' Hnd') as [Hnd'' Hmem''].
  split; [done|]. intros g. rewrite Hmem'', Hmem'. split.
  - intros [[?|[? ?]]|(? & n' & ? & ?)]; [by left | right..].
    + split; [done|]. exists n. split; [apply list_elem_of_here | done].
    + split; [done|]. exists n'. split; [by apply list_elem_of_further | done].
  - intros [?|(? & n' & [->|?]%elem_of_cons & ?)]; [by left; left | |].
    + left. by right.
    + right. split; [done|]. by exists n'.
Qed.

(** The groups of a created router, whose paths are looked for in the query
    as [_<group>], are the non-empty groups of its top-level nodes, each
    once. *)
Theorem created_groups_are_top_level_groups schema o self :
  create schema o = Ok self →
  NoDup (_groups self) ∧
  ∀ g, g ∈ _groups self ↔
       g ≠ "" ∧ ∃ n, n ∈ _children self ∧ group n = Some g.
Proof.
  unfold create. destruct (_build _ schema [] None) as [children|]; simpl; [|done].
  intros [= <-]. simpl. unfold build_groups.
  destruct (build_groups_fold children [] (NoDup_nil_2)) as [Hnd Hmem].
  split; [done|]. intros g. rewrite Hmem. split; [|by right].
  by intros [?%elem_of_nil|].
Qed.

Lemma created_groups_are_top_level_groups_witness :
  _groups (Examples.router_of Examples.group_schema) = ["sidebar"] ∧
  NoDup (_groups (Examples.router_of Examples.group_schema)).
Proof.
  split; [reflexivity|].
  exact (proj1 (created_groups_are_top_level_groups
                  Examples.group_schema Examples.options
                  (Examples.router_of Examples.group_schema) eq_refl)).
Defined.

Lemma compile_throws m :
  is_throw (Match.compile m) =
  match m with
  | PRegExp r => global r
  | PString _ => false
  end.
Proof.
  destruct m as [s | r]; simpl.
  - destruct (String.eqb s "*"); [done|]. by destruct (String.eqb s "**").
  - by destruct (global r).
Qed.

Lemma has_global_pattern_children m q e g dict :
  has_global_pattern (SchemaObject m q e g (Some dict)) =
  match m with
  | Some (PRegExp r) => global r
  | _ => false
  end || existsb (fun ks => has_global_pattern ks.2) dict.
Proof.
  simpl. f_equal. induction dict as [|[k s] dict IH]; simpl; [done|]. by rewrite IH.
Qed.

Lemma _build_throws segmentMatcher schemaDict parent parentGroup :
  Forall (fun ks => ∀ parent parentGroup key,
            is_throw (build_entry segmentMatcher parent parentGroup key ks.2)
            = has_global_pattern ks.2) schemaDict →
  is_throw (_build segmentMatcher schemaDict parent parentGroup)
  = existsb (fun ks => has_global_pattern ks.2) schemaDict.
Proof.
  induction 1 as [|[k s] dict Hs _ IH]; simpl; [done|].
  simpl in Hs. rewrite <- (Hs parent parentGroup k), <- IH. simpl.
  destruct (build_entry _ _ _ k s); simpl; [|done].
  by destruct (_build _ dict _ _).
Qed.

Lemma build_entry_throws segmentMatcher schema :
  ∀ parent parentGroup key,
    is_throw (build_entry segmentMatcher parent parentGroup key schema)
    = has_global_pattern schema.
Proof.
  assert (Hnew : ∀ key parent m q e g children,
            is_throw (new_RouteMatch key parent m q e g children)
            = is_throw (Match.compile m)).
  { intros. unfold new_RouteMatch. by destruct (Match.compile m). }
  assert (Hm : ∀ (m : option Pattern) key,
            is_throw (Match.compile (default (PString (segmentMatcher key)) m))
            = match m with Some (PRegExp r) => global r | _ => false end).
  { intros [[s|r]|] key; by rewrite compile_throws. }
  induction schema as [b | m q e g | m q e g dict IH] using RouteSchema_tree_ind;
    intros parent parentGroup key.
  - simpl. by rewrite Hnew, compile_throws.
  - rewrite build_entry_eq. cbv zeta. simpl has_global_pattern.
    rewrite orb_false_r, <- (Hm m key).
    destruct (Match.compile _) eqn:E; simpl; [|done].
    by rewrite Hnew, E.
  - rewrite build_entry_eq, has_global_pattern_children. cbv zeta.
    rewrite <- (Hm m key),
      <- (_build_throws segmentMatcher dict (key :: parent) (default parentGroup g))
      by (eapply Forall_impl; [exact IH|]; by intros [k s] Hs).
    destruct (Match.compile _) eqn:E; simpl; [|done].
    destruct (_build _ dict _ _); simpl; [|done].
    by rewrite Hnew, E.
Qed.

(** Building the tree fails exactly when the [$match] of some entry of the
    schema, at any depth, is a regular expression with the [global] flag;
    every other schema gives a router. *)
Theorem create_fails_on_global_patterns_only schema o :
  is_throw (create schema o)
  = existsb (fun ks => has_global_pattern ks.2) schema.
Proof.
  unfold create.
  rewrite <- (_build_throws (segmentMatcher o) schema [] None)
    by (apply Forall_forall; intros ks _; apply build_entry_throws).
  by destruct (_build _ schema [] None).
Qed.

(** ** [router.ts]: the query and the paths of a location *)



(** A key that is in no search parameter is not in [queryDict]. *)
Lemma parse_query_absent (searchParams : list (string * string)) k :
  k ∉ searchParams.*1 → parse_query searchParams !! k = None.
Proof.
  unfold parse_query.
  assert (H : ∀ (acc : Dict JsString), acc !! k = None → k ∉ searchParams.*1 →
            foldl (fun (dict : Dict JsString) (kv : string * string) =>
                     <[kv.1 := Some kv.2]> dict) acc searchParams !! k
            = None).
  { induction searchParams as [|[k' v'] l IH]; intros acc Hacc Hk; simpl; [done|].
    apply not_elem_of_cons in Hk as [Hne Hk]. apply IH; [|done].
    simpl in Hne. by rewrite lookup_insert_ne. }
  intros Hk. by apply H.
Qed.

(** The path that is matched against the tree, for a pathname under the
    prefix: the pathname without the prefix, or "/" when nothing is left;
    either way it starts with "/". *)
Theorem path_without_prefix_starts_with_slash self nextLocation :
  testPathPrefix (pathname nextLocation) (_prefix self) = true →
  (pathname nextLocation = _prefix self ∧
   pathWithoutPrefix self nextLocation = "/"
   ∨ pathname nextLocation = _prefix self +:+ pathWithoutPrefix self nextLocation) ∧
  ∃ u, pathWithoutPrefix self nextLocation = "/" +:+ u.
Proof.
  intros [Hp Hr]%isPathPrefix_split. unfold pathWithoutPrefix.
  set (r := Str.slice _ _) in *. clearbody r.
  destruct Hr as [-> | [u ->]]; simpl.
  - rewrite append_nil_r in Hp. split; [by left | by exists ""].
  - split; [by right | by exists u].
Qed.

Lemma path_without_prefix_starts_with_slash_witness :
  pathWithoutPrefix
    {| _default := Examples.at_ 0 "/" ""; _prefix := "/app"; _onLeave := false;
       _onChange := false; _location := None; _nextLocation := None;
       _source := empty_source; _matchingSource := empty_source;
       _children := []; _groups := []; _views := ∅ |}
    (Examples.at_ 1 "/app" "") = "/".
Proof.
  destruct (path_without_prefix_starts_with_slash
              {| _default := Examples.at_ 0 "/" ""; _prefix := "/app";
                 _onLeave := false; _onChange := false; _location := None;
                 _nextLocation := None; _source := empty_source;
                 _matchingSource := empty_source; _children := [];
                 _groups := []; _views := ∅ |}
              (Examples.at_ 1 "/app" "") eq_refl) as [[[_ H] | H] _].
  - exact H.
  - reflexivity.
Defined.

Section GroupPathFacts.

Variable URLSearchParams : string -> list (string * string).

Lemma group_key_inj g g' : "_" +:+ g = "_" +:+ g' → g = g'.
Proof. change (String "_" g = String "_" g' → g = g'). by intros [= ->]. Qed.

(** One step of the loop only deletes from the query, and only the key of
    its group. *)
Lemma extract_group_path_query acc g k :
  (extract_group_path acc g).2 !! k =
  if decide (k = "_" +:+ g) then None else acc.2 !! k.
Proof.
  destruct acc as [[pathInfos pathDict] queryDict]. simpl.
  destruct (queryDict !! ("_" +:+ g)) as [path|] eqn:E.
  - destruct (match path with
              | Some p => if Str.falsy p then _ else _
              | None => _
              end) as [pathInfos' pathDict']. simpl.
    destruct (decide (k = "_" +:+ g)) as [->|Hne];
      [apply lookup_delete_eq | by apply lookup_delete_ne].
  - simpl. by destruct (decide (k = "_" +:+ g)) as [->|].
Qed.

Lemma extract_group_paths_query groups acc k :
  (extract_group_paths groups acc).2 !! k =
  if bool_decide (k ∈ (fun g => "_" +:+ g) <$> groups) then None else acc.2 !! k.
Proof.
  revert acc. induction groups as [|g groups IH]; intros acc.
  { rewrite bool_decide_eq_false_2; [done | apply not_elem_of_nil]. }
  change (extract_group_paths (g :: groups) acc)
    with (extract_group_paths groups (extract_group_path acc g)).
  rewrite IH, extract_group_path_query, fmap_cons.
  destruct (decide (k = "_" +:+ g)) as [->|Hne].
  - rewrite (bool_decide_eq_true_2 (_ ∈ _ :: _)) by apply list_elem_of_here.
    by case_bool_decide.
  - do 2 case_bool_decide; try done.
    + exfalso. apply H0. by apply list_elem_of_further.
    + exfalso. apply elem_of_cons in H0 as [?|?]; done.
Qed.

Lemma extract_group_path_infos acc g info :
  info ∈ (extract_group_path acc g).1.1 ↔
  info ∈ acc.1.1 ∨
  ∃ p, acc.2 !! ("_" +:+ g) = Some (Some p) ∧ Str.falsy p = false ∧
       info = {| path := p; pi_group := Some g |}.
Proof.
  destruct acc as [[pathInfos pathDict] queryDict]. simpl.
  destruct (queryDict !! ("_" +:+ g)) as [[p|]|] eqn:E; simpl.
  - destruct (Str.falsy p) eqn:Hp; simpl.
    + split; [by left|]. intros [?|(p' & [= <-] & ? & _)]; [done | congruence].
    + rewrite elem_of_app, list_elem_of_singleton. split.
      * intros [?| ->]; [by left | right; by exists p].
      * intros [?|(p' & [= <-] & _ & ->)]; [by left | by right].
  - split; [by left|]. by intros [?|(p' & [= ] & _)].
  - split; [by left|]. by intros [?|(p' & [= ] & _)].
Qed.

Lemma extract_group_paths_infos_iff groups acc info :
  info ∈ (extract_group_paths groups acc).1.1 ↔
  info ∈ acc.1.1 ∨
  ∃ g p, g ∈ groups ∧ acc.2 !! ("_" +:+ g) = Some (Some p) ∧
         Str.falsy p = false ∧ info = {| path := p; pi_group := Some g |}.
Proof.
  revert acc. induction groups as [|g0 groups IH]; intros acc.
  { split; [by left|]. by intros [?|(g & p & ?%elem_of_nil & _)]. }
  change (extract_group_paths (g0 :: groups) acc)
    with (extract_group_paths groups (extract_group_path acc g0)).
  rewrite IH, extract_group_path_infos. split.
  - intros [[?|(p & ? & ? & ->)]|(g & p & Hg & Hq & Hp & ->)].
    + by left.
    + right. exists g0, p. split; [apply list_elem_of_here | done].
    + right. exists g, p. split; [by apply list_elem_of_further|].
      rewrite extract_group_path_query in Hq.
      by destruct (decide (_ = _)).
  - intros [?|(g & p & [->|Hg]%elem_of_cons & Hq & Hp & ->)].
    + by left; left.
    + left. right. by exists p.
    + destruct (decide (g = g0)) as [->|Hne]; [left; right; by exists p|].
      right. exists g, p. split; [done|]. split; [|done].
      rewrite extract_group_path_query.
      destruct (decide (_ = _)) as [E%group_key_inj|]; [done | exact Hq].
Qed.

End GroupPathFacts.

(** The paths of the groups come out of the query.  A group of the router
    whose parameter [_<group>] has a non-empty value gets a slot with that
    value as its path, next to the primary slot, and there is no other slot;
    the parameters [_<group>] of the router's groups are taken out of the
    query that the nodes see, and no other parameter is. *)
Theorem group_paths_are_taken_out_of_the_query node_match URLSearchParams self
    nextLocation :
  let query := parse_query (URLSearchParams (search nextLocation)) in
  (∀ info,
     info ∈ (route_paths URLSearchParams self nextLocation).1.1 ↔
     info = {| path := pathWithoutPrefix self nextLocation; pi_group := None |} ∨
     ∃ g p, g ∈ _groups self ∧ query !! ("_" +:+ g) = Some (Some p) ∧
            p ≠ "" ∧ info = {| path := p; pi_group := Some g |}) ∧
  (∀ k,
     queryDict (next_source node_match URLSearchParams self nextLocation) !! k =
     if bool_decide (k ∈ (fun g => "_" +:+ g) <$> _groups self)
     then None else query !! k).
Proof.
  intros query. split.
  - intros info. unfold route_paths. rewrite extract_group_paths_infos_iff. simpl.
    rewrite list_elem_of_singleton. fold query.
    assert (Hf : ∀ p, Str.falsy p = false ↔ p ≠ "") by (by intros []).
    split.
    + intros [?|(g & p & ? & ? & ?%Hf & ?)]; [by left | right; by exists g, p].
    + intros [?|(g & p & ? & ? & ?%Hf & ?)]; [by left | right; by exists g, p].
  - intros k. unfold next_source.
    pose proof (extract_group_paths_query (_groups self)
                  ([ {| path := pathWithoutPrefix self nextLocation; pi_group := None |} ],
                   {[ "_" := pathWithoutPrefix self nextLocation ]}, query) k) as Hq.
    unfold route_paths. fold query.
    destruct (extract_group_paths _ _) as [[pathInfos pathDict] queryDict'].
    exact Hq.
Qed.

(** ** [router.ts]: the merged map and the whitelist *)

Section MergeFacts.
Context {K V : Type} `{EqDecision K}.

Lemma map_keys_map_set (k : K) (v : V) (m : list (K * V)) (x : K) :
  x ∈ map_keys (map_set k v m) ↔ x = k ∨ x ∈ map_keys m.
Proof.
  unfold map_keys. induction m as [|[k' v'] m IH]; simpl.
  - rewrite list_elem_of_singleton, elem_of_nil. tauto.
  - destruct (decide (k' = k)) as [->|Hne]; csimpl.
    + rewrite !elem_of_cons. tauto.
    + rewrite !elem_of_cons, IH. tauto.
Qed.

Lemma map_keys_map_set_NoDup (k : K) (v : V) (m : list (K * V)) :
  NoDup (map_keys m) → NoDup (map_keys (map_set k v m)).
Proof.
  unfold map_keys. induction m as [|[k' v'] m IH]; simpl.
  - intros _. apply NoDup_singleton.
  - intros [Hk' Hm]%NoDup_cons. destruct (decide (k' = k)) as [->|Hne]; csimpl.
    + by apply NoDup_cons.
    + apply NoDup_cons. split; [|by apply IH].
      intros [?|?]%map_keys_map_set; [congruence | done].
Qed.

Lemma map_get_map_set_eq (k : K) (v : V) (m : list (K * V)) :
  map_get k (map_set k v m) = Some v.
Proof.
  induction m as [|[k' v'] m IH]; simpl.
  - by destruct (decide (k = k)).
  - destruct (decide (k' = k)) as [->|Hne]; simpl.
    + by destruct (decide (k = k)).
    + by destruct (decide (k' = k)).
Qed.

End MergeFacts.

Lemma merged_keys (entries : list RouteMatchEntry) acc (n : NodeRef) :
  n ∈ map_keys (foldl (fun m entry => map_set (ref (match_ entry)) entry m)
                      acc entries) ↔
  n ∈ map_keys acc ∨ ∃ e, e ∈ entries ∧ ref (match_ e) = n.
Proof.
  revert acc. induction entries as [|e entries IH]; intros acc; simpl.
  - split; [by left|]. by intros [?|(e & ?%elem_of_nil & _)].
  - rewrite IH, map_keys_map_set. split.
    + intros [[->|?]|(e' & ? & ?)]; [right | by left | right].
      * exists e. split; [apply list_elem_of_here | done].
      * exists e'. split; [by apply list_elem_of_further | done].
    + intros [?|(e' & [->|?]%elem_of_cons & <-)]; [by left; right | by left; left|].
      right. by exists e'.
Qed.

Lemma merged_keys_NoDup (entries : list RouteMatchEntry) acc :
  NoDup (map_keys acc) →
  NoDup (map_keys (foldl (fun m entry => map_set (ref (match_ entry)) entry m)
                         acc entries)).
Proof.
  revert acc. induction entries as [|e entries IH]; intros acc Hacc; simpl; [done|].
  by apply IH, map_keys_map_set_NoDup.
Qed.

(** No node is twice in the merged map. *)
Lemma merge_entries_NoDup groupToMatchEntriesMap :
  NoDup (map_keys (merge_entries groupToMatchEntriesMap)).
Proof.
  unfold merge_entries.
  destruct (map_get None groupToMatchEntriesMap) as [[|primaryEntry ?]|];
    try apply NoDup_nil_2.
  apply merged_keys_NoDup, NoDup_nil_2.
Qed.

(** The entries that the loop over the slots keeps under a whitelist. *)
Lemma whitelist_fold_elem whitelist
    (gm : list (JsString * list RouteMatchEntry)) acc e :
  e ∈ foldl (fun matchEntries ge =>
               if whitelisted whitelist ge.1 ge.2
               then matchEntries ++ ge.2 else matchEntries) acc gm ↔
  e ∈ acc ∨ ∃ g entries, (g, entries) ∈ gm ∧ e ∈ entries ∧
                         whitelisted whitelist g entries = true.
Proof.
  revert acc. induction gm as [|[g entries] gm IH]; intros acc; simpl.
  - split; [by left|]. by intros [?|(? & ? & ?%elem_of_nil & _)].
  - rewrite IH. split.
    + intros [He|(g' & entries' & ? & ? & ?)].
      * destruct (whitelisted whitelist g entries) eqn:Hw; [|by left].
        apply elem_of_app in He as [?|?]; [by left|].
        right. exists g, entries. split; [apply list_elem_of_here | done].
      * right. exists g', entries'. split; [by apply list_elem_of_further | done].
    + intros [?|(g' & entries' & [[= -> ->]|?]%elem_of_cons & ? & Hw)].
      * left. destruct (whitelisted _ _ _); [apply elem_of_app; by left | done].
      * left. rewrite Hw. apply elem_of_app. by right.
      * right. by exists g', entries'.
Qed.

(** With a primary match, the merged map holds the nodes of the chains of
    the slots that pass the whitelist of the primary match's first node, and
    no other node; it holds the nodes of every slot when that node has no
    whitelist.  The primary slot always passes. *)
Theorem merged_map_is_the_whitelisted_slots groupToMatchEntriesMap
    primaryEntry primaryRest (n : NodeRef) :
  map_get None groupToMatchEntriesMap = Some (primaryEntry :: primaryRest) →
  (n ∈ map_keys (merge_entries groupToMatchEntriesMap) ↔
   ∃ g entries e,
     (g, entries) ∈ groupToMatchEntriesMap ∧ e ∈ entries ∧ ref (match_ e) = n ∧
     match _parallel (match_ primaryEntry) with
     | Some whitelist => whitelisted whitelist g entries = true
     | None => True
     end) ∧
  (∀ e, e ∈ primaryEntry :: primaryRest →
        ref (match_ e) ∈ map_keys (merge_entries groupToMatchEntriesMap)).
Proof.
  intros Hprimary.
  assert (Hiff : n ∈ map_keys (merge_entries groupToMatchEntriesMap) ↔
   ∃ g entries e,
     (g, entries) ∈ groupToMatchEntriesMap ∧ e ∈ entries ∧ ref (match_ e) = n ∧
     match _parallel (match_ primaryEntry) with
     | Some whitelist => whitelisted whitelist g entries = true
     | None => True
     end); [|split; [exact Hiff|]].
  - unfold merge_entries. rewrite Hprimary.
    rewrite merged_keys. unfold map_keys at 1. simpl.
    rewrite elem_of_nil.
    destruct (_parallel (match_ primaryEntry)) as [whitelist|].
    + split.
      * intros [[]|(e & He & <-)]. apply whitelist_fold_elem in He as [?%elem_of_nil|(g & es & ? & ? & ?)];
          [done|]. by exists g, es, e.
      * intros (g & es & e & ? & ? & <- & ?). right. exists e. split; [|done].
        apply whitelist_fold_elem. right. by exists g, es.
    + split.
      * intros [[]|(e & He & <-)].
        apply list_elem_of_In, in_concat in He as (es & Hes & He).
        apply list_elem_of_In, list_elem_of_fmap in Hes as ([g es'] & -> & Hge).
        exists g, es', e. repeat split; try done. by apply list_elem_of_In.
      * intros (g & es & e & Hge & He & <- & _). right. exists e. split; [|done].
        apply list_elem_of_In, in_concat. exists es. split.
        -- apply list_elem_of_In, list_elem_of_fmap. by exists (g, es).
        -- by apply list_elem_of_In.
  - intros e He.
    assert (Hslot : (None, primaryEntry :: primaryRest) ∈ groupToMatchEntriesMap)
      by (by apply map_get_Some_elem).
    unfold merge_entries. rewrite Hprimary. apply merged_keys. right.
    exists e. split; [|done].
    destruct (_parallel (match_ primaryEntry)) as [whitelist|].
    + apply whitelist_fold_elem. right.
      by exists None, (primaryEntry :: primaryRest).
    + apply list_elem_of_In, in_concat. exists (primaryEntry :: primaryRest). split.
      * apply list_elem_of_In, list_elem_of_fmap. by exists (None, primaryEntry :: primaryRest).
      * by apply list_elem_of_In.
Qed.

Lemma merged_map_is_the_whitelisted_slots_witness :
  let groupToMatchEntriesMap :=
    match_parallel spec_node_match (_children whitelist_router)
      (route_paths simple_URLSearchParams whitelist_router
         (Examples.at_ 1 "/inbox" "?_g1=/chat&_g2=/help")).1.1 in
  map_keys groupToMatchEntriesMap = [None; Some "g1"; Some "g2"] ∧
  map_keys (merge_entries groupToMatchEntriesMap) = [ ["inbox"]; ["chat"] ] ∧
  ["inbox"] ∈ map_keys (merge_entries groupToMatchEntriesMap).
Proof.
  intros gm. split; [reflexivity|]. split; [reflexivity|].
  eassert (Hprimary : map_get None gm = Some (_ :: _)) by reflexivity.
  exact (proj2 (merged_map_is_the_whitelisted_slots gm _ _ ["inbox"] Hprimary)
           _ (list_elem_of_here _ _)).
Defined.

(** ** [router.ts]: a transition from its first hook to its last *)

Lemma triple_eta {A B C} (r : A * B * C) : r = (r.1.1, r.1.2, r.2).
Proof. by destruct r as [[? ?] ?]. Qed.

Lemma awaited_from_static self self' :
  awaited_from self self' → static self' = static self.
Proof. by intros ->. Qed.

Lemma after_hooks_finished hooks kind ms self evs self' :
  after_hooks hooks kind ms self = (evs, self', None) →
  evs = awaited hooks kind ms.
Proof.
  revert self evs. induction ms as [|m ms IH]; intros self evs; cbn [after_hooks].
  { by intros [= <- <-]. }
  destruct (await_spec hooks (kind m) m self) as (s1 & -> & _).
  destruct (resolved (hooks (kind m) m)) as [result|] eqn:Hr; [|done].
  destruct (after_hooks hooks kind ms s1) as [[evs0 s2] ex0] eqn:E.
  intros [= <- <- ->]. apply IH in E as ->.
  unfold awaited. by rewrite fmap_cons, Hr.
Qed.

Lemma update_all_views leavingMatches entries self :
  _views (update_all leavingMatches entries self).2
  = views_after leavingMatches entries (_views self).
Proof.
  unfold update_all, views_after. simpl.
  assert (Hf : ∀ ms s,
            _views (foldl (fun self m => _update m false false self) s ms)
            = foldl (fun v m => <[m := {| view_matched := false;
                                          view_exact := false |}]> v)
                    (_views s) ms).
  { induction ms as [|m ms IH]; intros s; simpl; [done|]. by rewrite IH. }
  assert (Hg : ∀ (ms : list (NodeRef * RouteMatchEntry)) s,
            _views (foldl (fun self me => _update me.1 true (exact me.2) self) s ms)
            = foldl (fun v me => <[me.1 := {| view_matched := true;
                                              view_exact := exact me.2 |}]> v)
                    (_views s) ms).
  { induction ms as [|m ms IH]; intros s; simpl; [done|]. by rewrite IH. }
  by rewrite Hg, Hf.
Qed.

Lemma map_get_None_keys {V} (k : NodeRef) (m : list (NodeRef * V)) :
  map_get k m = None ↔ k ∉ map_keys m.
Proof.
  unfold map_keys. induction m as [|[k' v] m IH]; csimpl.
  - split; [intros _; apply not_elem_of_nil | done].
  - rewrite not_elem_of_cons. destruct (decide (k' = k)) as [->|Hne].
    + split; [done | by intros []].
    + rewrite IH. split; [by split | by intros []].
Qed.

(** What the two loops of "Update" leave in a node's observable fields. *)
Lemma views_after_lookup leavingMatches entries views (n : NodeRef) :
  NoDup (map_keys entries) →
  views_after leavingMatches entries views !! n =
  match map_get n entries with
  | Some entry => Some {| view_matched := true; view_exact := exact entry |}
  | None =>
      if bool_decide (n ∈ leavingMatches)
      then Some {| view_matched := false; view_exact := false |}
      else views !! n
  end.
Proof.
  unfold views_after.
  assert (Hf : ∀ ms (v : gmap NodeRef NodeView),
            foldl (fun v m => <[m := {| view_matched := false;
                                        view_exact := false |}]> v) v ms !! n
            = if bool_decide (n ∈ ms)
              then Some {| view_matched := false; view_exact := false |}
              else v !! n).
  { induction ms as [|m ms IH]; intros v; cbn [foldl].
    - rewrite bool_decide_eq_false_2; [done | apply not_elem_of_nil].
    - rewrite IH. destruct (decide (n = m)) as [->|Hne].
      + rewrite lookup_insert_eq.
        rewrite (bool_decide_eq_true_2 (m ∈ m :: ms)) by apply list_elem_of_here.
        by case_bool_decide.
      + rewrite lookup_insert_ne by done.
        case_bool_decide as Hd; case_bool_decide as Hd'; try done.
        * exfalso. apply Hd'. by apply list_elem_of_further.
        * exfalso. apply elem_of_cons in Hd' as [?|?]; done. }
  generalize (foldl (fun v m => <[m := {| view_matched := false;
                                          view_exact := false |}]> v)
                    views leavingMatches) (Hf leavingMatches views).
  intros acc Hacc. rewrite <- Hacc. clear Hacc Hf.
  revert acc. induction entries as [|[k e] entries IH]; intros acc Hnd; simpl; [done|].
  apply NoDup_cons in Hnd as [Hk Hnd]. change (k ∉ map_keys entries) in Hk.
  rewrite (IH _ Hnd).
  destruct (decide (k = n)) as [->|Hne].
  - apply map_get_None_keys in Hk. by rewrite Hk, lookup_insert_eq.
  - destruct (map_get n entries); [done|]. by rewrite lookup_insert_ne.
Qed.

Section FinishedFacts.

Variable node_match : RouteMatch -> string -> RouteMatchInternalResult.
Variable URLSearchParams : string -> list (string * string).

Local Abbreviation run := (_asyncOnLocationChange node_match URLSearchParams).
Local Abbreviation next_source := (Router.next_source node_match URLSearchParams).
Local Abbreviation leavingMatches :=
  (reversedLeavingMatches node_match URLSearchParams).
Local Abbreviation enteringMatches :=
  (enteringAndUpdatingMatchSet node_match URLSearchParams).

(** The run from the commit on, in full. *)
Lemma commit_and_notify_full hooks start nextLocation self evs self' ex :
  awaited_from (set_matchingSource (next_source start nextLocation) start) self →
  commit_and_notify node_match URLSearchParams hooks start nextLocation self
    = (evs, self', ex) →
  static self' = static start ∧
  _views self'
  = views_after (leavingMatches start nextLocation)
      (matchToMatchEntryMap (next_source start nextLocation)) (_views start) ∧
  (ex = Finished →
   evs = update_events (leavingMatches start nextLocation)
           (matchToMatchEntryMap (next_source start nextLocation))
         ++ awaited hooks (fun _ => AfterLeave) (leavingMatches start nextLocation)
         ++ awaited hooks (afterKind start) (enteringMatches start nextLocation)
         ++ (if _onChange start then [OnChange (_location start) nextLocation]
             else [])).
Proof.
  intros A02. unfold commit_and_notify. cbv zeta.
  set (lv := leavingMatches start nextLocation).
  set (eu := enteringMatches start nextLocation).
  set (s3 := set_source _ (set_location _ self)).
  pose proof (update_all_views lv (matchToMatchEntryMap (next_source start nextLocation)) s3)
    as Hv.
  destruct (update_all lv (matchToMatchEntryMap (next_source start nextLocation)) s3)
    as [evs3 s4] eqn:U.
  apply update_all_spec in U as [U ->]. cbn [snd] in Hv.
  assert (Hs3 : static s3 = static start ∧ _views s3 = _views start).
  { unfold s3. rewrite A02. by destruct start. }
  destruct Hs3 as [Hs3 Hv3]. rewrite Hv3 in Hv.
  assert (Hs4 : static s4 = static start) by (rewrite U; exact Hs3).
  destruct (after_hooks hooks (fun _ => AfterLeave) lv s4) as [[evs4 s5] ex4] eqn:F4.
  pose proof (after_hooks_spec _ _ _ _ _ _ _ F4) as (A4 & _ & Hex4).
  destruct ex4 as [e4|].
  { intros [= <- <- <-]. destruct Hex4 as [|[= ->]]; [done|].
    split; [by rewrite (awaited_from_static _ _ A4)|]. split; [|done].
    by apply awaited_from_fields in A4 as (_ & _ & _ & -> & _). }
  apply after_hooks_finished in F4 as ->.
  destruct (after_hooks hooks (afterKind start) eu s5) as [[evs5 s6] ex5] eqn:F5.
  pose proof (after_hooks_spec _ _ _ _ _ _ _ F5) as (A5 & _ & Hex5).
  assert (A46 : awaited_from s4 s6) by (by eapply awaited_from_trans).
  assert (Hs6 : static s6 = static start)
    by (by rewrite (awaited_from_static _ _ A46)).
  assert (Hv6 : _views s6 = _views s4)
    by (by apply awaited_from_fields in A46 as (_ & _ & _ & -> & _)).
  destruct ex5 as [e5|].
  { intros [= <- <- <-]. destruct Hex5 as [|[= ->]]; [done|].
    split; [done|]. split; [by rewrite Hv6 | done]. }
  apply after_hooks_finished in F5 as ->.
  intros [= <- <- <-]. split; [done|]. split; [by rewrite Hv6|]. intros _.
  assert (Hch : _onChange s6 = _onChange start).
  { by injection Hs6 as _ _ _ -> _ _. }
  by rewrite Hch.
Qed.

(** A run that ends at the end of the function went through both loops of
    before-hooks and the commit. *)
Lemma run_finished_inv hooks self nextLocation evs self' :
  run hooks self nextLocation = (evs, self', Finished) →
  ∃ s2 evsT,
    awaited_from (set_matchingSource (next_source self nextLocation) self) s2 ∧
    commit_and_notify node_match URLSearchParams hooks self nextLocation s2
      = (evsT, self', Finished) ∧
    evs = allowed (fun _ => BeforeLeave) (leavingMatches self nextLocation)
          ++ allowed (beforeKind self) (enteringMatches self nextLocation)
          ++ evsT.
Proof.
  unfold _asyncOnLocationChange.
  destruct (_isNextLocationOutDated self nextLocation); [done|].
  destruct (match _location self with
            | Some l => isLocationEqual l nextLocation
            | None => false
            end); [done|].
  destruct (negb (testPathPrefix _ _)); [done|].
  cbv zeta.
  destruct (before_hooks hooks (fun _ => BeforeLeave) nextLocation _ _)
    as [[evs1 s1] ex1] eqn:B1.
  apply before_hooks_spec in B1 as [A1 B1].
  destruct ex1 as [e1|]; [intros [= <- <- ->]; done|]. subst evs1.
  destruct (before_hooks hooks (beforeKind self) nextLocation _ s1)
    as [[evs2 s2] ex2] eqn:B2.
  apply before_hooks_spec in B2 as [A2 B2].
  destruct ex2 as [e2|]; [intros [= <- <- ->]; done|]. subst evs2.
  destruct (commit_and_notify _ _ hooks self nextLocation s2)
    as [[evsT s'] eT] eqn:T.
  intros [= <- <- ->]. exists s2, evsT.
  split; [by eapply awaited_from_trans | done].
Qed.

End FinishedFacts.

(** The order of a transition that runs to its end: the [beforeLeave] hooks
    of the leaving nodes, last matched first; the [beforeEnter] or
    [beforeUpdate] hooks of the entering and updating nodes, in the order of
    the next set; the commit and the updates, the leaving nodes first; the
    [afterLeave] hooks; the [afterEnter] or [afterUpdate] hooks; and
    [onChange] with the previous and the new location.  Every before-hook
    has resolved to a truthy value. *)
Theorem finished_transition_order node_match URLSearchParams hooks self
    nextLocation evs self' :
  _asyncOnLocationChange node_match URLSearchParams hooks self nextLocation
    = (evs, self', Finished) →
  let leavingMatches :=
    reversedLeavingMatches node_match URLSearchParams self nextLocation in
  let enteringMatches :=
    enteringAndUpdatingMatchSet node_match URLSearchParams self nextLocation in
  evs = allowed (fun _ => BeforeLeave) leavingMatches
        ++ allowed (beforeKind self) enteringMatches
        ++ update_events leavingMatches
             (matchToMatchEntryMap
                (next_source node_match URLSearchParams self nextLocation))
        ++ awaited hooks (fun _ => AfterLeave) leavingMatches
        ++ awaited hooks (afterKind self) enteringMatches
        ++ (if _onChange self then [OnChange (_location self) nextLocation]
            else []).
Proof.
  intros (s2 & evsT & A & T & ->)%run_finished_inv.
  apply commit_and_notify_full in T as (_ & _ & HT); [|done].
  by rewrite (HT eq_refl).
Qed.

Lemma finished_transition_order_witness :
  let start :=
    (Examples.navigate Examples.allow_all
       (Examples.router_of Examples.parent_schema)
       (Examples.at_ 1 "/parent/nested" "")).1.2 in
  let ran :=
    _asyncOnLocationChange spec_node_match simple_URLSearchParams
      Examples.allow_all
      (_onLocationChange start (Examples.at_ 2 "/parent" ""))
      (Examples.at_ 2 "/parent" "") in
  ran.2 = Finished ∧
  ran.1.1
  = [ Hook BeforeLeave ["nested"; "parent"] (Some true);
      Hook BeforeUpdate ["parent"] (Some true);
      Update ["nested"; "parent"] false false;
      Update ["parent"] true true;
      Hook AfterLeave ["nested"; "parent"] (Some true);
      Hook AfterUpdate ["parent"] (Some true) ].
Proof.
  intros start ran. subst ran.
  remember (_asyncOnLocationChange _ _ _ _ _) as ran eqn:Hran.
  assert (Hex : ran.2 = Finished) by (rewrite Hran; vm_compute; reflexivity).
  pose proof (eq_trans (eq_sym Hran)
                (eq_trans (triple_eta ran)
                   (f_equal (fun ex => (ran.1.1, ran.1.2, ex)) Hex))) as Hrun.
  split; [exact Hex|].
  rewrite (finished_transition_order _ _ _ _ _ _ _ Hrun).
  vm_compute. reflexivity.
Defined.

(** After a transition that ran to its end, the observable fields of the
    nodes agree with the committed snapshot: a node of the committed map is
    matched, and exact as its entry says; a node that was matched before and
    is not any more is neither; every other node is as it was. *)
Theorem finished_views_agree_with_snapshot node_match URLSearchParams hooks self
    nextLocation evs self' (n : NodeRef) :
  _asyncOnLocationChange node_match URLSearchParams hooks self nextLocation
    = (evs, self', Finished) →
  _views self' !! n =
  match map_get n (matchToMatchEntryMap (_source self')) with
  | Some entry => Some {| view_matched := true; view_exact := exact entry |}
  | None =>
      if bool_decide (n ∈ previousMatchSet self)
      then Some {| view_matched := false; view_exact := false |}
      else _views self !! n
  end.
Proof.
  intros Hrun. pose proof (run_spec _ _ _ _ _ _ _ _ Hrun) as (_ & Hs & _).
  apply run_finished_inv in Hrun as (s2 & evsT & A & T & _).
  apply commit_and_notify_full in T as (_ & Hv & _); [|done].
  rewrite Hv, Hs, views_after_lookup.
  2:{ unfold next_source. destruct (route_paths _ _ _) as [[? ?] ?].
      apply merge_entries_NoDup. }
  destruct (map_get n _) eqn:Hn; [done|].
  apply map_get_None_keys in Hn.
  unfold reversedLeavingMatches.
  do 2 case_bool_decide; try done.
  - apply elem_of_reverse, elem_of_leaving in H as [? _]. done.
  - exfalso. apply H. apply elem_of_reverse, elem_of_leaving. done.
Qed.

Lemma finished_views_agree_with_snapshot_witness :
  let start :=
    (Examples.navigate Examples.allow_all
       (Examples.router_of Examples.parent_schema)
       (Examples.at_ 1 "/parent/nested" "")).1.2 in
  let ran :=
    _asyncOnLocationChange spec_node_match simple_URLSearchParams
      Examples.allow_all
      (_onLocationChange start (Examples.at_ 2 "/parent" ""))
      (Examples.at_ 2 "/parent" "") in
  ran.2 = Finished ∧
  _views ran.1.2 !! ["nested"; "parent"]
  = Some {| view_matched := false; view_exact := false |} ∧
  _views ran.1.2 !! ["parent"]
  = Some {| view_matched := true; view_exact := true |}.
Proof.
  intros start ran. subst ran.
  remember (_asyncOnLocationChange _ _ _ _ _) as ran eqn:Hran.
  assert (Hex : ran.2 = Finished) by (rewrite Hran; vm_compute; reflexivity).
  pose proof (eq_trans (eq_sym Hran)
                (eq_trans (triple_eta ran)
                   (f_equal (fun ex => (ran.1.1, ran.1.2, ex)) Hex))) as Hrun.
  split; [exact Hex|]. split.
  - rewrite (finished_views_agree_with_snapshot _ _ _ _ _ _ _
               ["nested"; "parent"] Hrun).
    rewrite Hran. vm_compute. reflexivity.
  - rewrite (finished_views_agree_with_snapshot _ _ _ _ _ _ _ ["parent"] Hrun).
    rewrite Hran. vm_compute. reflexivity.
Defined.

(** ** [router.ts]: what a transition leaves behind *)

Section AtomicFacts.

Variable node_match : RouteMatch -> string -> RouteMatchInternalResult.
Variable URLSearchParams : string -> list (string * string).

Local Abbreviation run := (_asyncOnLocationChange node_match URLSearchParams).
Local Abbreviation next_source := (Router.next_source node_match URLSearchParams).

Lemma before_phase_untouched start nextLocation self' :
  awaited_from (set_matchingSource (next_source start nextLocation) start) self' →
  static self' = static start ∧ untouched start self'.
Proof.
  intros A. split.
  - rewrite (awaited_from_static _ _ A). by destruct start.
  - apply awaited_from_fields in A as (Hs & _ & Hl & Hv & _).
    unfold untouched. rewrite Hs, Hl, Hv. by destruct start.
Qed.

Lemma run_state hooks self nextLocation evs self' ex :
  run hooks self nextLocation = (evs, self', ex) →
  static self' = static self ∧
  match ex with
  | Finished => landed node_match URLSearchParams self nextLocation self'
  | Rejected =>
      untouched self self' ∨ landed node_match URLSearchParams self nextLocation self'
  | _ => untouched self self'
  end.
Proof.
  unfold _asyncOnLocationChange.
  destruct (_isNextLocationOutDated self nextLocation).
  { by intros [= <- <- <-]. }
  destruct (match _location self with
            | Some l => isLocationEqual l nextLocation
            | None => false
            end).
  { by intros [= <- <- <-]. }
  destruct (negb (testPathPrefix _ _)).
  { by intros [= <- <- <-]. }
  cbv zeta.
  destruct (before_hooks hooks (fun _ => BeforeLeave) nextLocation _ _)
    as [[evs1 s1] ex1] eqn:B1.
  apply before_hooks_spec in B1 as [A1 B1].
  destruct ex1 as [e1|].
  { intros [= <- <- <-].
    destruct (before_phase_untouched _ _ _ A1) as [? ?].
    split; [done|]. destruct e1; try done. by left. }
  destruct (before_hooks hooks (beforeKind self) nextLocation _ s1)
    as [[evs2 s2] ex2] eqn:B2.
  apply before_hooks_spec in B2 as [A2 B2].
  assert (A02 : awaited_from
                  (set_matchingSource (next_source self nextLocation) self) s2)
    by (by eapply awaited_from_trans).
  destruct ex2 as [e2|].
  { intros [= <- <- <-].
    destruct (before_phase_untouched _ _ _ A02) as [? ?].
    split; [done|]. destruct e2; try done. by left. }
  destruct (commit_and_notify _ _ hooks self nextLocation s2)
    as [[evsT s'] eT] eqn:T.
  destruct (commit_and_notify_spec _ _ _ _ _ _ _ _ _ A02 T)
    as (HeT & Hl & Hs & Hm & _).
  destruct (commit_and_notify_full _ _ _ _ _ _ _ _ _ A02 T) as (Hst & Hv & _).
  intros [= <- <- <-]. split; [done|].
  assert (Hlanded : landed node_match URLSearchParams self nextLocation s').
  { unfold landed. rewrite Hs. done. }
  destruct HeT as [-> | ->]; [done | by right].
Qed.


End AtomicFacts.

(** A transition commits all or nothing, and never touches what the router
    was constructed with.  When it runs to its end, the committed location is
    the new one, the committed snapshot is the one computed for it, the
    speculative snapshot is the committed one, and the observable fields of
    the nodes have been updated from it.  When it ends at one of its
    [return]s, the committed location, snapshot and observable fields are
    what they were.  When a hook rejects, it is one or the other.  The
    default, the prefix, the callbacks, the tree and the groups are the same
    afterwards in every case. *)
Theorem transition_commits_all_or_nothing node_match URLSearchParams hooks self
    nextLocation :
  let ran :=
    _asyncOnLocationChange node_match URLSearchParams hooks self nextLocation in
  static ran.1.2 = static self ∧
  match ran.2 with
  | Finished => landed node_match URLSearchParams self nextLocation ran.1.2
  | Rejected =>
      untouched self ran.1.2 ∨
      landed node_match URLSearchParams self nextLocation ran.1.2
  | _ => untouched self ran.1.2
  end.
Proof.
  intros ran.
  destruct ran as [[evs self'] ex] eqn:Hrun. simpl.
  by eapply run_state.
Qed.



(** ** [src/src/library/router.ts]: the synchronous transition *)

Section SyncFacts.

Variable node_match : RouteMatch -> string -> RouteMatchInternalResult.
Variable URLSearchParams : string -> list (string * string).
Variable locationsAreEqual : Location -> Location -> bool.

Local Abbreviation sync_run :=
  (SyncRouter._onLocationChange node_match URLSearchParams locationsAreEqual).
Local Abbreviation sync_next :=
  (SyncRouter.next_source node_match URLSearchParams).

(** What the events of a loop of hooks are: hooks of the loop's kind for
    nodes of the loop's list, with no call on the history but the one that
    ends the loop, and no [_update]. *)
Lemma before_leave_spec hooks action ms self evs self' ex :
  SyncRouter.before_leave hooks action ms self = (evs, self', ex) →
  match ex with
  | None => evs = SyncRouter.Hook SyncRouter.BeforeLeave <$> ms
  | Some SyncRouter.Reverted =>
      ∃ pre m post,
        ms = pre ++ m :: post ∧
        evs = (SyncRouter.Hook SyncRouter.BeforeLeave <$> pre ++ [m])
              ++ [SyncRouter._revert action self']
  | Some SyncRouter.Threw =>
      ∃ pre m post,
        ms = pre ++ m :: post ∧
        evs = SyncRouter.Hook SyncRouter.BeforeLeave <$> pre ++ [m]
  | Some _ => False
  end.
Proof.
  revert self evs ex.
  induction ms as [|m ms IH]; intros self evs ex; cbn [SyncRouter.before_leave].
  { by intros [= <- <- <-]. }
  destruct (hooks SyncRouter.BeforeLeave m self) as [[result|] s1].
  2:{ intros [= <- <- <-]. by exists [], m, ms. }
  destruct (SyncRouter.not_ result).
  { intros [= <- <- <-]. by exists [], m, ms. }
  destruct (SyncRouter.before_leave hooks action ms s1) as [[evs0 s2] ex0] eqn:E.
  intros [= <- <- <-]. apply IH in E.
  destruct ex0 as [[]|]; try done.
  - destruct E as (pre & m' & post & -> & ->). by exists (m :: pre), m', post.
  - destruct E as (pre & m' & post & -> & ->). by exists (m :: pre), m', post.
  - by rewrite E.
Qed.

Lemma before_enter_spec hooks action ms self evs self' ex :
  SyncRouter.before_enter hooks action ms self = (evs, self', ex) →
  match ex with
  | None => evs = SyncRouter.Hook SyncRouter.BeforeEnter <$> ms
  | Some SyncRouter.Reverted =>
      ∃ pre m post,
        ms = pre ++ m :: post ∧
        evs = (SyncRouter.Hook SyncRouter.BeforeEnter <$> pre ++ [m])
              ++ [SyncRouter._revert action self']
  | Some SyncRouter.Redirected =>
      ∃ pre m post path,
        ms = pre ++ m :: post ∧
        evs = (SyncRouter.Hook SyncRouter.BeforeEnter <$> pre ++ [m])
              ++ [SyncRouter.ReplacePath path]
  | Some SyncRouter.Threw =>
      ∃ pre m post,
        ms = pre ++ m :: post ∧
        evs = SyncRouter.Hook SyncRouter.BeforeEnter <$> pre ++ [m]
  | Some _ => False
  end.
Proof.
  revert self evs ex.
  induction ms as [|m ms IH]; intros self evs ex; cbn [SyncRouter.before_enter].
  { by intros [= <- <- <-]. }
  destruct (hooks SyncRouter.BeforeEnter m self) as [[result|] s1].
  2:{ intros [= <- <- <-]. by exists [], m, ms. }
  assert (Hrest : ∀ evs0 s2 ex0,
            SyncRouter.before_enter hooks action ms s1 = (evs0, s2, ex0) →
            (SyncRouter.Hook SyncRouter.BeforeEnter m :: evs0, s2, ex0)
              = (evs, self', ex) →
            match ex with
            | None => evs = SyncRouter.Hook SyncRouter.BeforeEnter <$> m :: ms
            | Some SyncRouter.Reverted =>
                ∃ pre m0 post,
                  m :: ms = pre ++ m0 :: post ∧
                  evs = (SyncRouter.Hook SyncRouter.BeforeEnter <$> pre ++ [m0])
                        ++ [SyncRouter._revert action self']
            | Some SyncRouter.Redirected =>
                ∃ pre m0 post path,
                  m :: ms = pre ++ m0 :: post ∧
                  evs = (SyncRouter.Hook SyncRouter.BeforeEnter <$> pre ++ [m0])
                        ++ [SyncRouter.ReplacePath path]
            | Some SyncRouter.Threw =>
                ∃ pre m0 post,
                  m :: ms = pre ++ m0 :: post ∧
                  evs = SyncRouter.Hook SyncRouter.BeforeEnter <$> pre ++ [m0]
            | Some _ => False
            end).
  { intros evs0 s2 ex0 E. intros [= <- <- <-]. apply IH in E.
    destruct ex0 as [[]|]; try done.
    - destruct E as (pre & m' & post & -> & ->). by exists (m :: pre), m', post.
    - destruct E as (pre & m' & post & path & -> & ->).
      by exists (m :: pre), m', post, path.
    - destruct E as (pre & m' & post & -> & ->). by exists (m :: pre), m', post.
    - by rewrite E. }
  destruct result as [path|truthy].
  { intros [= <- <- <-]. by exists [], m, ms, path. }
  destruct (SyncRouter.not_ (SyncRouter.ROther truthy)).
  { intros [= <- <- <-]. by exists [], m, ms. }
  destruct (SyncRouter.before_enter hooks action ms s1) as [[evs0 s2] ex0] eqn:E.
  by apply Hrest.
Qed.

Lemma sync_after_hooks_spec hooks kind ms self evs self' ex :
  SyncRouter.after_hooks hooks kind ms self = (evs, self', ex) →
  match ex with
  | None => evs = SyncRouter.Hook kind <$> ms
  | Some SyncRouter.Threw =>
      ∃ pre m post, ms = pre ++ m :: post ∧ evs = SyncRouter.Hook kind <$> pre ++ [m]
  | Some _ => False
  end.
Proof.
  revert self evs ex.
  induction ms as [|m ms IH]; intros self evs ex; cbn [SyncRouter.after_hooks].
  { by intros [= <- <- <-]. }
  destruct (hooks kind m self) as [[result|] s1].
  2:{ intros [= <- <- <-]. by exists [], m, ms. }
  destruct (SyncRouter.after_hooks hooks kind ms s1) as [[evs0 s2] ex0] eqn:E.
  intros [= <- <- <-]. apply IH in E.
  destruct ex0 as [[]|]; try done.
  - destruct E as (pre & m' & post & -> & ->). by exists (m :: pre), m', post.
  - by rewrite E.
Qed.

(** The hooks among the events of a loop. *)
Lemma hooks_of_loop kind (ms pre : list NodeRef) m post k n tail :
  ms = pre ++ m :: post →
  (∀ ev, ev ∈ tail → ∀ k n, ev ≠ SyncRouter.Hook k n) →
  SyncRouter.Hook k n ∈ (SyncRouter.Hook kind <$> pre ++ [m]) ++ tail →
  k = kind ∧ n ∈ ms.
Proof.
  intros -> Htail [Hin|Hin]%elem_of_app.
  - apply list_elem_of_fmap in Hin as (n' & [= -> ->] & Hn).
    split; [done|]. apply elem_of_app in Hn as [?|Hn]; apply elem_of_app.
    + by left.
    + right. apply list_elem_of_singleton in Hn as ->. apply list_elem_of_here.
  - by destruct (Htail _ Hin k n).
Qed.

Lemma hooks_of_full_loop kind (ms : list NodeRef) k n :
  SyncRouter.Hook k n ∈ SyncRouter.Hook kind <$> ms → k = kind ∧ n ∈ ms.
Proof. by intros (n' & [= -> ->] & Hn)%list_elem_of_fmap. Qed.

Lemma before_leave_hooks hooks action ms self evs self' ex k n :
  SyncRouter.before_leave hooks action ms self = (evs, self', ex) →
  SyncRouter.Hook k n ∈ evs → k = SyncRouter.BeforeLeave ∧ n ∈ ms.
Proof.
  intros E%before_leave_spec Hin. destruct ex as [[]|]; try done.
  - destruct E as (pre & m & post & Hms & ->).
    eapply hooks_of_loop; [exact Hms | | exact Hin].
    intros ev ->%list_elem_of_singleton k' n'. by destruct action.
  - destruct E as (pre & m & post & Hms & ->).
    eapply (hooks_of_loop _ _ _ _ _ _ _ []); [exact Hms | |].
    + intros ev Hev. by apply elem_of_nil in Hev.
    + by rewrite (right_id_L [] (++)).
  - subst evs. by apply hooks_of_full_loop.
Qed.

Lemma before_enter_hooks hooks action ms self evs self' ex k n :
  SyncRouter.before_enter hooks action ms self = (evs, self', ex) →
  SyncRouter.Hook k n ∈ evs → k = SyncRouter.BeforeEnter ∧ n ∈ ms.
Proof.
  intros E%before_enter_spec Hin. destruct ex as [[]|]; try done.
  - destruct E as (pre & m & post & Hms & ->).
    eapply hooks_of_loop; [exact Hms | | exact Hin].
    intros ev ->%list_elem_of_singleton k' n'. by destruct action.
  - destruct E as (pre & m & post & path & Hms & ->).
    eapply hooks_of_loop; [exact Hms | | exact Hin].
    by intros ev ->%list_elem_of_singleton k' n'.
  - destruct E as (pre & m & post & Hms & ->).
    eapply (hooks_of_loop _ _ _ _ _ _ _ []); [exact Hms | |].
    + intros ev Hev. by apply elem_of_nil in Hev.
    + by rewrite (right_id_L [] (++)).
  - subst evs. by apply hooks_of_full_loop.
Qed.

Lemma sync_after_hooks_hooks hooks kind ms self evs self' ex k n :
  SyncRouter.after_hooks hooks kind ms self = (evs, self', ex) →
  SyncRouter.Hook k n ∈ evs → k = kind ∧ n ∈ ms.
Proof.
  intros E%sync_after_hooks_spec Hin. destruct ex as [[]|]; try done.
  - destruct E as (pre & m & post & Hms & ->).
    eapply (hooks_of_loop _ _ _ _ _ _ _ []); [exact Hms | |].
    + intros ev Hev. by apply elem_of_nil in Hev.
    + by rewrite (right_id_L [] (++)).
  - subst evs. by apply hooks_of_full_loop.
Qed.

Lemma sync_update_events_no_hook lv next map k n :
  SyncRouter.Hook k n ∉ SyncRouter.update_events lv next map.
Proof.
  unfold SyncRouter.update_events.
  intros [Hin|Hin]%elem_of_app; by apply list_elem_of_fmap in Hin as (? & ? & _).
Qed.

(** The hooks of a run are those of the nodes that leave and of the nodes
    that enter. *)
Lemma sync_run_hooks hooks self argument action history_location evs self' ex k n :
  sync_run hooks self argument action history_location = (evs, self', ex) →
  SyncRouter.Hook k n ∈ evs →
  match k with
  | SyncRouter.BeforeLeave | SyncRouter.AfterLeave =>
      n ∈ SyncRouter.leavingMatchSet node_match URLSearchParams self argument
  | SyncRouter.BeforeEnter | SyncRouter.AfterEnter =>
      n ∈ SyncRouter.enteringMatchSet node_match URLSearchParams self argument
  end.
Proof.
  unfold SyncRouter._onLocationChange.
  destruct (locationsAreEqual _ _).
  { intros [= <- <- <-] Hin. by apply elem_of_nil in Hin. }
  cbv zeta.
  destruct (SyncRouter.before_leave hooks action _ _) as [[evs1 s1] ex1] eqn:B1.
  assert (H1 : SyncRouter.Hook k n ∈ evs1 →
               k = SyncRouter.BeforeLeave ∧
               n ∈ SyncRouter.leavingMatchSet node_match URLSearchParams self argument).
  { intros Hin. eapply before_leave_hooks in Hin as [-> Hin]; [|exact B1].
    split; [done|]. by rewrite elem_of_reverse in Hin. }
  destruct ex1 as [e1|].
  { intros [= <- <- <-] Hin. by destruct (H1 Hin) as [-> ?]. }
  destruct (SyncRouter.before_enter hooks action _ s1) as [[evs2 s2] ex2] eqn:B2.
  pose proof (before_enter_hooks _ _ _ _ _ _ _ k n B2) as H2.
  destruct ex2 as [e2|].
  { intros [= <- <- <-] [Hin|Hin]%elem_of_app.
    - by destruct (H1 Hin) as [-> ?].
    - by destruct (H2 Hin) as [-> ?]. }
  destruct (SyncRouter.after_hooks hooks SyncRouter.AfterLeave _ _)
    as [[evs4 s4] ex4] eqn:F4.
  pose proof (sync_after_hooks_hooks _ _ _ _ _ _ _ k n F4) as H4.
  assert (H14 : SyncRouter.Hook k n
                  ∈ evs1 ++ evs2
                    ++ SyncRouter.update_events
                         (SyncRouter.leavingMatchSet node_match URLSearchParams
                            self argument)
                         (SyncRouter.nextMatchSet node_match URLSearchParams
                            self argument)
                         (SyncRouter.matchToMatchEntryMap (sync_next self argument))
                    ++ evs4 →
                match k with
                | SyncRouter.BeforeLeave | SyncRouter.AfterLeave =>
                    n ∈ SyncRouter.leavingMatchSet node_match URLSearchParams
                          self argument
                | SyncRouter.BeforeEnter | SyncRouter.AfterEnter =>
                    n ∈ SyncRouter.enteringMatchSet node_match URLSearchParams
                          self argument
                end).
  { intros [Hin|[Hin|[Hin|Hin]%elem_of_app]%elem_of_app]%elem_of_app.
    - by destruct (H1 Hin) as [-> ?].
    - by destruct (H2 Hin) as [-> ?].
    - by apply sync_update_events_no_hook in Hin.
    - by destruct (H4 Hin) as [-> ?]. }
  destruct ex4 as [e4|].
  { intros [= <- <- <-]. exact H14. }
  destruct (SyncRouter.after_hooks hooks SyncRouter.AfterEnter _ s4)
    as [[evs5 s5] ex5] eqn:F5.
  pose proof (sync_after_hooks_hooks _ _ _ _ _ _ _ k n F5) as H5.
  intros [= <- <- <-] Hin.
  rewrite !(assoc_L (++)) in Hin. apply elem_of_app in Hin as [Hin|Hin].
  - rewrite <- !(assoc_L (++)) in Hin. by apply H14.
  - by destruct (H5 Hin) as [-> ?].
Qed.




End SyncFacts.

(** The synchronous router calls hooks only for the nodes that change
    sides: a leave hook is called for a node that was matched and is not
    matched by the new path, an enter hook for a node that is matched by the
    new path and was not matched.  A node matched before and after gets no
    hook. *)
Theorem sync_hooks_are_for_changed_nodes node_match URLSearchParams
    locationsAreEqual hooks self argument action history_location k n :
  let ran :=
    SyncRouter._onLocationChange node_match URLSearchParams locationsAreEqual
      hooks self argument action history_location in
  let previous := SyncRouter.previousMatchSet self in
  let next := SyncRouter.nextMatchSet node_match URLSearchParams self argument in
  SyncRouter.Hook k n ∈ ran.1.1 →
  match k with
  | SyncRouter.BeforeLeave | SyncRouter.AfterLeave => n ∈ previous ∧ n ∉ next
  | SyncRouter.BeforeEnter | SyncRouter.AfterEnter => n ∈ next ∧ n ∉ previous
  end.
Proof.
  intros ran previous next Hin.
  destruct ran as [[evs self'] ex] eqn:Hrun. simpl in Hin.
  pose proof (sync_run_hooks _ _ _ _ _ _ _ _ _ _ _ k n Hrun Hin) as H.
  destruct k; by apply elem_of_leaving in H.
Qed.

Lemma sync_hooks_are_for_changed_nodes_witness :
  let start :=
    (sync_navigate sync_hooks sync_router (Examples.at_ 1 "/about" "")
       SyncRouter.PUSH).1.2 in
  let location := Examples.at_ 2 "/persist" "" in
  let ran :=
    SyncRouter._onLocationChange spec_node_match simple_URLSearchParams
      isLocationEqual sync_hooks start location SyncRouter.PUSH location in
  SyncRouter.Hook SyncRouter.BeforeLeave ["about"] ∈ ran.1.1 ∧
  (["about"] ∈ SyncRouter.previousMatchSet start ∧
   ["about"] ∉ SyncRouter.nextMatchSet spec_node_match simple_URLSearchParams
                 start location).
Proof.
  intros start location ran.
  assert (Hin : SyncRouter.Hook SyncRouter.BeforeLeave ["about"] ∈ ran.1.1)
    by (vm_compute; apply list_elem_of_here).
  split; [exact Hin|].
  exact (sync_hooks_are_for_changed_nodes spec_node_match simple_URLSearchParams
           isLocationEqual sync_hooks start location SyncRouter.PUSH location
           SyncRouter.BeforeLeave ["about"] Hin).
Defined.




